(** * pysisyphus/InternalCoordinates.py: redundant internal coordinates

    A shallow embedding of [RedundantCoords] and [DelocalizedCoords]:
    bond detection and fragment merging, bend and dihedral enumeration,
    the proximity weights [rho], the primitive values and gradient rows, the
    Wilson B matrix and its generalised inverse, the iterative Cartesian
    back-transformation and the delocalised subspace.

    Numbers are real numbers ([R]); numpy arrays are lists; sets of atom
    indices (Python [frozenset]) are lists of [nat]; Python exceptions are
    the constructors of [py_exc], threaded through the [result] monad. *)

From Stdlib Require Import String Ascii.
From Stdlib Require Import Reals Lra Epsilon.
From Stdlib Require Import List Arith Lia Bool.
Import ListNotations.

(** ** Python exceptions *)

Inductive py_exc : Type :=
| IndexError             (* [list.pop(0)] on an empty list *)
| NameError              (* an unbound global name *)
| AssertionError
| TypeError
| ValueError_unpack      (* tuple unpacking of the wrong length *)
| ValueError_truth       (* truth value of an array with several elements *)
| ValueError_broadcast   (* operands could not be broadcast together *)
| ValueError_squareform  (* scipy squareform: incompatible vector size *)
| ValueError_shape       (* np.dot: shapes not aligned *)
| ValueError_argmin      (* argmin of an empty sequence *)
| AttributeError.

Inductive result (A : Type) : Type :=
| Ok (a : A)
| Err (e : py_exc).
Arguments Ok {A} a.
Arguments Err {A} e.

Definition bind {A B : Type} (m : result A) (k : A -> result B) : result B :=
  match m with
  | Ok a => k a
  | Err e => Err e
  end.

Notation "x <- m ;; k" := (bind m (fun x => k))
  (at level 61, m at next level, right associativity).

(** ** Sets of atom indices *)

Module IdxSet.

Definition mem (x : nat) (s : list nat) : bool := existsb (Nat.eqb x) s.

(** [s1 & s2], [s1 | s2], [s1 - s2] *)
Definition inter (s1 s2 : list nat) : list nat := filter (fun x => mem x s2) s1.
Definition union (s1 s2 : list nat) : list nat :=
  s1 ++ filter (fun x => negb (mem x s1)) s2.
Definition diff (s1 s2 : list nat) : list nat := filter (fun x => negb (mem x s2)) s1.

(** the distinct elements of [s] *)
Fixpoint dedup (s : list nat) : list nat :=
  match s with
  | [] => []
  | x :: t => if mem x t then dedup t else x :: dedup t
  end.

(** [len(s)] *)
Definition card (s : list nat) : nat := length (dedup s).

(** [s1 == s2] *)
Definition set_eqb (s1 s2 : list nat) : bool :=
  forallb (fun x => mem x s2) s1 && forallb (fun x => mem x s1) s2.

(** [bool(s1 & s2)] *)
Definition intersects (s1 s2 : list nat) : bool := existsb (fun x => mem x s2) s1.

End IdxSet.
Import IdxSet.

(** [itertools.combinations(l, 2)] *)
Fixpoint combinations2 {A : Type} (l : list A) : list (A * A) :=
  match l with
  | [] => []
  | x :: t => map (fun y => (x, y)) t ++ combinations2 t
  end.

Fixpoint remove_nth {A : Type} (i : nat) (l : list A) : list A :=
  match i, l with
  | _, [] => []
  | O, _ :: t => t
  | S i', x :: t => x :: remove_nth i' t
  end.

(** ** [RedundantCoords.merge_fragments]

    [fragments.pop(0)], then the first remaining fragment that intersects the
    popped one is removed and the union appended, and the method recurses;
    when none intersects, the popped fragment is appended and the list is
    returned.  ([fragments.remove(frag)] removes the first fragment equal to
    [frag]; an earlier equal fragment would intersect [popped] too, so it is
    the one at the index the loop stopped at.)  Every recursive call has one
    fragment less, so [length fragments] bounds the recursion depth.
    CPython's limit on nested calls (about 1000 frames) is not modelled: a
    result about a returned list holds whenever the method returns. *)

Fixpoint find_intersecting (popped : list nat) (fs : list (list nat)) (i : nat)
  : option (nat * list nat) :=
  match fs with
  | [] => None
  | frag :: t => if intersects popped frag then Some (i, frag)
                 else find_intersecting popped t (S i)
  end.

Fixpoint merge_fragments_fuel (fuel : nat) (fragments : list (list nat))
  : result (list (list nat)) :=
  match fuel with
  | O => Ok fragments
  | S fuel' =>
      if length fragments =? 1 then Ok fragments else
      match fragments with
      | [] => Err IndexError
      | popped :: rest =>
          match find_intersecting popped rest 0 with
          | Some (i, frag) =>
              merge_fragments_fuel fuel' (remove_nth i rest ++ [union popped frag])
          | None => Ok (rest ++ [popped])
          end
      end
  end.

Definition merge_fragments (fragments : list (list nat)) : result (list (list nat)) :=
  merge_fragments_fuel (S (length fragments)) fragments.

(** ** [RedundantCoords.sort_by_central] and [set_bending_indices]

    A bond is an index pair; [frozenset(bi)] is modelled by the pair with its
    smaller index first.  The iteration order of a Python set is not fixed by
    the language: the set of bonds is iterated in list order after removing
    duplicates, and the two terminals of [union - central_set] are taken in
    ascending order. *)

Definition norm_pair (p : nat * nat) : nat * nat :=
  let (a, b) := p in if a <=? b then (a, b) else (b, a).

Definition pset (p : nat * nat) : list nat := [fst p; snd p].

Definition pair_eq_dec : forall p q : nat * nat, {p = q} + {p <> q}.
Proof. decide equality; apply Nat.eq_dec. Defined.

Definition sort_by_central (set1 set2 : nat * nat) : result (nat * nat * nat) :=
  let central_set := dedup (inter (pset set1) (pset set2)) in
  let union_ := dedup (union (pset set1) (pset set2)) in
  match central_set with
  | [central] =>
      match diff union_ central_set with
      | [t1; t2] => Ok (if t1 <=? t2 then (t1, central, t2) else (t2, central, t1))
      | _ => Err ValueError_unpack
      end
  | _ => Err AssertionError
  end.

Fixpoint bends_of (ps : list ((nat * nat) * (nat * nat))) : result (list (nat * nat * nat)) :=
  match ps with
  | [] => Ok []
  | (s1, s2) :: t =>
      if card (union (pset s1) (pset s2)) =? 3 then
        b <- sort_by_central s1 s2 ;;
        bs <- bends_of t ;;
        Ok (b :: bs)
      else bends_of t
  end.

Definition set_bending_indices (bond_indices : list (nat * nat))
  : result (list (nat * nat * nat)) :=
  let bond_sets := nodup pair_eq_dec (map norm_pair bond_indices) in
  bends_of (combinations2 bond_sets).

(** ** [RedundantCoords.set_dihedral_indices] *)

Definition dihedral_candidate (bond : nat * nat) (bend : nat * nat * nat)
  : option (list nat) :=
  let '(b0, b1) := bond in
  let '(e0, central, e2) := bend in
  let bes := [e0; e2] in
  let bois := [b0; b1] in
  if (card (inter bes bois) =? 1) && negb (mem central bois) then
    (* (intersect,) = set(bond) & set(bend) *)
    let intersect := if mem b0 [e0; central; e2] then b0 else b1 in
    let terminal := if intersect =? b0 then b1 else b0 in
    if intersect =? e0 then Some [terminal; e0; central; e2]
    else Some [e0; central; e2; terminal]
  else None.

Definition dihedral_step (acc : list (list nat) * list (list nat))
    (bb : (nat * nat) * (nat * nat * nat)) : list (list nat) * list (list nat) :=
  let '(dihedral_indices, dihedral_sets) := acc in
  match dihedral_candidate (fst bb) (snd bb) with
  | Some dihedral_ind =>
      if existsb (set_eqb dihedral_ind) dihedral_sets then acc
      else (dihedral_indices ++ [dihedral_ind], dihedral_sets ++ [dihedral_ind])
  | None => acc
  end.

Definition set_dihedral_indices (bond_indices : list (nat * nat))
    (bending_indices : list (nat * nat * nat)) : list (list nat) :=
  fst (fold_left dihedral_step (list_prod bond_indices bending_indices) ([], [])).

(** ** Real arithmetic: 3-vectors, rows and matrices *)

Open Scope R_scope.

Definition Rltb (x y : R) : bool := if Rlt_dec x y then true else false.
Definition Rleb (x y : R) : bool := if Rle_dec x y then true else false.

Record vec3 := V3 { vx : R; vy : R; vz : R }.

Definition v0 : vec3 := V3 0 0 0.
Definition vadd (a b : vec3) : vec3 := V3 (vx a + vx b) (vy a + vy b) (vz a + vz b).
Definition vsub (a b : vec3) : vec3 := V3 (vx a - vx b) (vy a - vy b) (vz a - vz b).
Definition vscale (k : R) (a : vec3) : vec3 := V3 (k * vx a) (k * vy a) (k * vz a).
Definition vopp (a : vec3) : vec3 := V3 (- vx a) (- vy a) (- vz a).
Definition vdot (a b : vec3) : R := vx a * vx b + vy a * vy b + vz a * vz b.
Definition vcross (a b : vec3) : vec3 :=
  V3 (vy a * vz b - vz a * vy b) (vz a * vx b - vx a * vz b) (vx a * vy b - vy a * vx b).
(** [np.linalg.norm] *)
Definition vnorm (a : vec3) : R := sqrt (vdot a a).
(** [a / k] for an array [a] and a scalar [k] *)
Definition vdiv (a : vec3) (k : R) : vec3 := vscale (/ k) a.

(** [coords.reshape(-1, 3)] and [row.flatten()] *)
Fixpoint reshape3 (l : list R) : list vec3 :=
  match l with
  | x :: y :: z :: t => V3 x y z :: reshape3 t
  | _ => []
  end.

Definition flatten (l : list vec3) : list R :=
  flat_map (fun v => [vx v; vy v; vz v]) l.

(** [row[i, :] = x] (indices are in range wherever the code writes a row) *)
Fixpoint set_nth {A : Type} (i : nat) (x : A) (l : list A) : list A :=
  match i, l with
  | _, [] => []
  | O, _ :: t => x :: t
  | S i', y :: t => y :: set_nth i' x t
  end.

(** [np.zeros_like(coords)] for [coords] of shape (N, 3) *)
Definition zeros_like (coords : list vec3) : list vec3 := repeat v0 (length coords).

(** elementwise [a + b], [a - b] of two arrays of one shape *)
Definition ladd (a b : list R) : list R := map (fun p => fst p + snd p) (combine a b).
Definition lsub (a b : list R) : list R := map (fun p => fst p - snd p) (combine a b).
Definition ldot (a b : list R) : R := fold_right Rplus 0 (map (fun p => fst p * snd p) (combine a b)).
Definition lsum (a : list R) : R := fold_right Rplus 0 a.

(** Matrices as lists of rows. *)
Definition ncols (M : list (list R)) : nat :=
  match M with [] => 0%nat | r :: _ => length r end.
Definition transpose (M : list (list R)) : list (list R) :=
  map (fun j => map (fun row => nth j row 0) M) (seq 0 (ncols M)).
Definition matvec (M : list (list R)) (v : list R) : list R := map (fun row => ldot row v) M.
Definition matmul (A B : list (list R)) : list (list R) :=
  map (fun row => map (fun col => ldot row col) (transpose B)) A.

(** [np.linalg.pinv]: the Moore-Penrose inverse, the matrix [X] of the
    transposed shape with [M X M = M], [X M X = X] and [M X], [X M]
    symmetric. *)
Definition is_pinv (M X : list (list R)) : Prop :=
  length X = ncols M /\ Forall (fun r => length r = length M) X /\
  matmul (matmul M X) M = M /\ matmul (matmul X M) X = X /\
  transpose (matmul M X) = matmul M X /\ transpose (matmul X M) = matmul X M.

Definition pinv (M : list (list R)) : list (list R) :=
  epsilon (inhabits []) (is_pinv M).

(** ** Primitive internal coordinates: [calc_stretch], [calc_bend],
    [calc_dihedral] (with [grad=True]: value and gradient row) *)

Definition calc_stretch (coords : list vec3) (bond_ind : nat * nat) : R * list R :=
  let '(n, m) := bond_ind in
  let bond := vsub (nth m coords v0) (nth n coords v0) in
  let bond_length := vnorm bond in
  let bond_normed := vdiv bond bond_length in
  let row := zeros_like coords in
  (* 1 / -1 correspond to the sign factor [1] Eq. 18 *)
  let row := set_nth m (vscale 1 bond_normed) row in
  let row := set_nth n (vscale (-1) bond_normed) row in
  (bond_length, flatten row).

(** [are_parallel(vec1, vec2, thresh=1e-6)] *)
Definition are_parallel (vec1 vec2 : vec3) : bool :=
  let rad := acos (vdot vec1 vec2) in
  Rltb (PI - / 1000000) (Rabs rad).

Definition calc_bend (coords : list vec3) (angle_ind : nat * nat * nat) : R * list R :=
  let '(m, o, n) := angle_ind in
  let u_dash := vsub (nth m coords v0) (nth o coords v0) in
  let v_dash := vsub (nth n coords v0) (nth o coords v0) in
  let u_norm := vnorm u_dash in
  let v_norm := vnorm v_dash in
  let u := vdiv u_dash u_norm in
  let v := vdiv v_dash v_norm in
  let angle_rad := acos (vdot u v) in
  let w_dash :=
    if are_parallel u v then
      let tmp_vec := V3 1 (-1) 1 in
      let par := are_parallel u tmp_vec && are_parallel v tmp_vec in
      let tmp_vec := if par then V3 (-1) 1 1 else tmp_vec in
      vcross u tmp_vec
    else vcross u v in
  let w_norm := vnorm w_dash in
  let w := vdiv w_dash w_norm in
  let uxw := vcross u w in
  let wxv := vcross w v in
  let row := zeros_like coords in
  let first_term := vdiv uxw u_norm in
  let second_term := vdiv wxv v_norm in
  let row := set_nth m first_term row in
  let row := set_nth o (vsub (vopp first_term) second_term) row in
  let row := set_nth n second_term row in
  (angle_rad, flatten row).

Definition calc_dihedral (coords : list vec3) (dihedral_ind : list nat) : R * list R :=
  match dihedral_ind with
  | [m; o; p; n] =>
      let u_dash := vsub (nth m coords v0) (nth o coords v0) in
      let v_dash := vsub (nth n coords v0) (nth p coords v0) in
      let w_dash := vsub (nth p coords v0) (nth o coords v0) in
      let u_norm := vnorm u_dash in
      let v_norm := vnorm v_dash in
      let w_norm := vnorm w_dash in
      let u := vdiv u_dash u_norm in
      let v := vdiv v_dash v_norm in
      let w := vdiv w_dash w_norm in
      let phi_u := acos (vdot u w) in
      let phi_v := acos (vdot w v) in
      let uxw := vcross u w in
      let vxw := vcross v w in
      let cos_dihed := vdot uxw vxw / (sin phi_u * sin phi_v) in
      (* Restrict cos_dihed to [-1, 1] *)
      let cos_dihed := Rmin cos_dihed 1 in
      let cos_dihed := Rmax cos_dihed (-1) in
      let dihedral_rad := acos cos_dihed in
      let row := zeros_like coords in
      let sin2_u := sin phi_u ^ 2 in
      let sin2_v := sin phi_v ^ 2 in
      let first_term := vdiv uxw (u_norm * sin2_u) in
      let second_term := vdiv vxw (v_norm * sin2_v) in
      let third_term := vsub (vdiv (vscale (cos phi_u) uxw) (w_norm * sin2_u))
                             (vdiv (vscale (cos phi_v) vxw) (w_norm * sin2_v)) in
      let row := set_nth m first_term row in
      let row := set_nth n (vopp second_term) row in
      let row := set_nth o (vadd (vopp first_term) third_term) row in
      let row := set_nth p (vsub second_term third_term) row in
      (dihedral_rad, flatten row)
  | _ => (0, [])   (* every dihedral index row has four entries *)
  end.

(** [PrimitiveCoord = namedtuple("PrimitiveCoord", "inds val grad")] *)
Record PrimitiveCoord := { inds : list nat; val : R; grad : list R }.

(** [RedundantCoords.calculate(coords)]: stretches, then bends, then dihedrals *)
Definition calculate (bond_indices : list (nat * nat)) (bending_indices : list (nat * nat * nat))
    (dihedral_indices : list (list nat)) (coords : list R) : list PrimitiveCoord :=
  let coords3d := reshape3 coords in
  map (fun ind => let '(v, g) := calc_stretch coords3d ind in
                  {| inds := [fst ind; snd ind]; val := v; grad := g |}) bond_indices
  ++ map (fun ind => let '(v, g) := calc_bend coords3d ind in
                     let '(m, o, n) := ind in
                     {| inds := [m; o; n]; val := v; grad := g |}) bending_indices
  ++ map (fun ind => let '(v, g) := calc_dihedral coords3d ind in
                     {| inds := ind; val := v; grad := g |}) dihedral_indices.

Fixpoint mapM {A B : Type} (f : A -> result B) (l : list A) : result (list B) :=
  match l with
  | [] => Ok []
  | x :: t => y <- f x ;; ys <- mapM f t ;; Ok (y :: ys)
  end.

(** ** Geometry and atom symbols *)

Record Geometry := { atoms : list string; coords : list R }.

(** [str.lower()] on ASCII symbols *)
Definition lower_ascii (c : ascii) : ascii :=
  let n := nat_of_ascii c in
  if (65 <=? n)%nat && (n <=? 90)%nat then ascii_of_nat (n + 32)%nat else c.

Fixpoint lower (s : string) : string :=
  match s with
  | EmptyString => EmptyString
  | String c t => String (lower_ascii c) (lower t)
  end.

(** [scipy.spatial.distance.pdist(coords3d)]: Euclidean distances of the
    pairs [i < j] in the order of [itertools.combinations(range(N), 2)] *)
Definition pdist (coords3d : list vec3) : list R :=
  map (fun p => vnorm (vsub (nth (fst p) coords3d v0) (nth (snd p) coords3d v0)))
      (combinations2 (seq 0 (length coords3d))).

(** [scipy.spatial.distance.squareform(v)] for a condensed vector [v]: the
    empty vector gives the 1x1 zero matrix; otherwise [len(v)] must be
    [d (d - 1) / 2] for some [d]. *)
Definition tri_root (s : nat) : option nat :=
  find (fun d => (d * (d - 1) =? 2 * s)%nat) (seq 0 (s + 3)).

Definition cidx (d i j : nat) : nat := (d * i - i * (i + 1) / 2 + (j - i - 1))%nat.

Definition squareform (v : list R) : result (list (list R)) :=
  match v with
  | [] => Ok [[0]]
  | _ =>
      match tri_root (length v) with
      | Some d =>
          Ok (map (fun i => map (fun j =>
                 if (i <? j)%nat then nth (cidx d i j) v 0
                 else if (j <? i)%nat then nth (cidx d j i) v 0 else 0)
               (seq 0 d)) (seq 0 d))
      | None => Err ValueError_squareform
      end
  end.

(** numpy broadcasting of a binary elementwise operation on two 1-d arrays *)
Definition broadcast (f : R -> R -> R) (a b : list R) : result (list R) :=
  if (length a =? length b)%nat then Ok (map (fun p => f (fst p) (snd p)) (combine a b))
  else if (length a =? 1)%nat then Ok (map (f (hd 0 a)) b)
  else if (length b =? 1)%nat then Ok (map (fun x => f x (hd 0 b)) a)
  else Err ValueError_broadcast.

(** [distances.argmin()] and [indices[...]]: the first pair of least distance *)
Definition argmin_first (l : list ((nat * nat) * R)) : result (nat * nat) :=
  match l with
  | [] => Err ValueError_argmin
  | x :: t => Ok (fst (fold_left (fun best y => if Rltb (snd y) (snd best) then y else best) t x))
  end.

(** [RedundantCoords.connect_fragments(cdm, fragments)] *)
Definition connect_fragments (cdm : list R) (fragments : list (list nat))
  : result (list (nat * nat)) :=
  dist_mat <- squareform cdm ;;
  mapM (fun fr =>
          let indices := list_prod (fst fr) (snd fr) in
          argmin_first (map (fun ij => (ij, nth (snd ij) (nth (fst ij) dist_mat []) 0)) indices))
       (combinations2 fragments).

Section Radii.

(** [pysisyphus.elem_data.COVALENT_RADII], indexed by lower-case symbol. *)
Variable CR : string -> R.

(** the bonds found by the distance test: the first part of
    [RedundantCoords.set_bond_indices], up to [atom_indices[bond_flags]] *)
Definition detect_bonds (g : Geometry) (factor : R) : list (nat * nat) :=
  let coords3d := reshape3 (coords g) in
  let cdm := pdist coords3d in
  let atom_indices := combinations2 (seq 0 (length coords3d)) in
  let cov_rad_sums :=
    map (fun p => factor * (CR (lower (nth (fst p) (atoms g) ""%string))
                            + CR (lower (nth (snd p) (atoms g) ""%string)))) atom_indices in
  let bond_flags := map (fun p => Rleb (fst p) (snd p)) (combine cdm cov_rad_sums) in
  map fst (filter snd (combine atom_indices bond_flags)).

(** [RedundantCoords.set_bond_indices(factor)].  With more than one
    fragment the method calls [connect_fragments(cdm, fragments)] as a bare
    name: no such global exists (the method is [self.connect_fragments]), so
    the call raises [NameError].  [reduce] over a single bond returns that
    bond itself (an array), and asserting [array == set] raises. *)
Definition set_bond_indices (g : Geometry) (factor : R) : result (list (nat * nat)) :=
  let coords3d := reshape3 (coords g) in
  let cdm := pdist coords3d in
  let atom_indices := combinations2 (seq 0 (length coords3d)) in
  let cov_rad_sums :=
    map (fun p => factor * (CR (lower (nth (fst p) (atoms g) ""%string))
                            + CR (lower (nth (snd p) (atoms g) ""%string)))) atom_indices in
  let bond_flags := map (fun p => Rleb (fst p) (snd p)) (combine cdm cov_rad_sums) in
  let bond_indices := map fst (filter snd (combine atom_indices bond_flags)) in
  let bond_ind_sets := map pset bond_indices in
  fragments <- merge_fragments bond_ind_sets ;;
  if negb (length fragments =? 1)%nat then Err NameError
  else
    match bond_indices with
    | [] => Err TypeError
    | [_] => Err ValueError_truth
    | b :: t =>
        let bonded_set := fold_left (fun acc p => union acc (pset p)) t (pset b) in
        if set_eqb bonded_set (seq 0 (length (atoms g))) then Ok bond_indices
        else Err AssertionError
    end.


Definition first_period : list string := ["h"; "he"]%string.
Definition in_first_period (a : string) : bool := existsb (String.eqb a) first_period.

Definition get_alpha (atom1 atom2 : string) : R :=
  if in_first_period atom1 && in_first_period atom2 then 1
  else if in_first_period atom1 || in_first_period atom2 then 3949 / 10000
  else 28 / 100.

(** [RedundantCoords.set_rho()]: [alphas] and [cdm] have one entry per atom
    pair, [cov_radii] one entry per atom. *)
Definition set_rho (g : Geometry) : result (list (list R)) :=
  let atoms_ := map lower (atoms g) in
  let alphas := map (fun p => get_alpha (fst p) (snd p)) (combinations2 atoms_) in
  let cov_radii := map (fun a => CR (lower a)) atoms_ in
  let coords3d := reshape3 (coords g) in
  let cdm := pdist coords3d in
  d <- broadcast Rminus (map (fun r => r ^ 2) cov_radii) (map (fun x => x ^ 2) cdm) ;;
  e <- broadcast Rmult alphas d ;;
  squareform (map exp e).

End Radii.

(** ** The engine object *)

Record RedundantCoords := {
  geom : Geometry;
  _coords : list PrimitiveCoord;
  bond_indices : list (nat * nat);
  bending_indices : list (nat * nat * nat);
  dihedral_indices : list (list nat);
  rho : list (list R)
}.

(** [RedundantCoords.__init__(geom)] *)
Definition RedundantCoords_init (CR : string -> R) (g : Geometry) : result RedundantCoords :=
  bonds <- set_bond_indices CR g (13 / 10) ;;
  bends <- set_bending_indices bonds ;;
  let diheds := set_dihedral_indices bonds bends in
  let cs := calculate bonds bends diheds (coords g) in
  rho_ <- set_rho CR g ;;
  Ok {| geom := g; _coords := cs; bond_indices := bonds; bending_indices := bends;
        dihedral_indices := diheds; rho := rho_ |}.


(** the properties [B] and [B_inv] *)
Definition B (self : RedundantCoords) : list (list R) := map grad (_coords self).
Definition B_inv (self : RedundantCoords) : list (list R) :=
  let B_ := B self in matmul (pinv (matmul B_ (transpose B_))) B_.

(** [self.calculate(coords, attr="val")] *)
Definition calc_vals (self : RedundantCoords) (c : list R) : list R :=
  map val (calculate (bond_indices self) (bending_indices self) (dihedral_indices self) c).

(** [self.calculate_val_diffs(coords1, coords2)] *)
Definition calculate_val_diffs (self : RedundantCoords) (coords1 coords2 : list R) : list R :=
  lsub (calc_vals self coords1) (calc_vals self coords2).

(** ** [RedundantCoords.transform(step, cart_rms_thresh=1e-6)]

    The state the method touches: the geometry's [coords] attribute, the
    numpy arrays reachable by the caller (a heap of float arrays, addressed
    by [nat]) and standard output.  [step] is the address of the caller's
    array: [last_step = step] aliases it and [last_step -= ...] updates it in
    place.  [self.geom.coords.copy()] is a fresh array, held as a value. *)

Inductive printed_line : Type :=
| Cycle (i : nat) (cart_rms : R)
| Converged_msg.

Record World := mkWorld {
  geom_coords : list R;
  heap : nat -> list R;
  stdout : list printed_line
}.

Definition heap_store (w : World) (a : nat) (v : list R) : World :=
  mkWorld (geom_coords w) (fun b => if (b =? a)%nat then v else heap w b) (stdout w).
Definition print (w : World) (l : printed_line) : World :=
  mkWorld (geom_coords w) (heap w) (stdout w ++ [l]).
Definition set_geom_coords (w : World) (c : list R) : World :=
  mkWorld c (heap w) (stdout w).

(** [np.sqrt(np.mean((coords1 - coords2)**2))] *)
Definition rms (coords1 coords2 : list R) : R :=
  let d := lsub coords1 coords2 in
  sqrt (lsum (map (fun x => x ^ 2) d) / INR (length d)).

Fixpoint transform_loop (self : RedundantCoords) (B_invT : list (list R)) (step : nat)
    (cart_rms_thresh : R) (fuel i : nat) (w : World) (last_coords last_vals : list R)
  : World * list R :=
  match fuel with
  | O => (w, last_coords)
  | S fuel' =>
      let last_step := heap w step in
      let cartesian_step := matvec B_invT last_step in
      let new_coords := ladd last_coords cartesian_step in
      let cartesian_rms := rms last_coords new_coords in
      let new_vals := calc_vals self new_coords in
      let w := heap_store w step (lsub last_step (lsub new_vals last_vals)) in
      let w := print w (Cycle i cartesian_rms) in
      if Rltb cartesian_rms cart_rms_thresh then (print w Converged_msg, new_coords)
      else transform_loop self B_invT step cart_rms_thresh fuel' (S i) w new_coords new_vals
  end.

(** [for i in range(25)]; the shapes of [B_inv.T] and [step] are checked by
    [np.dot] in the first cycle, before anything is written.  The method
    returns [None]. *)
Definition transform (self : RedundantCoords) (w : World) (step : nat) (cart_rms_thresh : R)
  : result (World * unit) :=
  let B_inv_ := B_inv self in
  let last_coords := geom_coords w in
  let last_vals := calc_vals self last_coords in
  if negb (length (heap w step) =? length B_inv_)%nat then Err ValueError_shape
  else
    let '(w', last_coords') :=
      transform_loop self (transpose B_inv_) step cart_rms_thresh 25 0 w last_coords last_vals in
    Ok (set_geom_coords w' last_coords', tt).

(** ** [DelocalizedCoords.set_delocalized_vectors(thresh=1e-6)]

    A [DelocalizedCoords] object has the attributes of [RedundantCoords]:
    the instance attributes set by [__init__] and the class's properties [B]
    and [B_inv] (which have no setter).  [eigh] is [np.linalg.eigh]:
    eigenvalues and the matrix whose columns are the eigenvectors. *)

Definition getattr_matrix (self : RedundantCoords) (name : string) : result (list (list R)) :=
  if String.eqb name "B" then Ok (B self)
  else if String.eqb name "B_inv" then Ok (B_inv self)
  else if String.eqb name "rho" then Ok (rho self)
  else Err AttributeError.

Definition setattr (self : RedundantCoords) (name : string) : result unit :=
  if String.eqb name "B" || String.eqb name "B_inv" then Err AttributeError else Ok tt.

Definition set_delocalized_vectors (eigh : list (list R) -> list R * list (list R))
    (self : RedundantCoords) (thresh : R) : result (list (list R)) :=
  B_prim <- getattr_matrix self "B_prim" ;;
  let G := matmul B_prim (transpose B_prim) in
  let '(w, v) := eigh G in
  let non_zero_inds := filter (fun k => Rltb thresh (Rabs (nth k w 0))) (seq 0 (length w)) in
  let degrees_of_freedom := (3 * Z.of_nat (length (atoms (geom self))) - 6)%Z in
  if negb (Z.of_nat (length non_zero_inds) =? degrees_of_freedom)%Z then Err AssertionError
  else
    let delocalized_vectors := map (fun row => map (fun k => nth k row 0) non_zero_inds) v in
    (* Eq. 3 in [2], transformation of B to the active coordinate set *)
    _ <- setattr self "B" ;;
    _ <- setattr self "B_inv" ;;
    Ok delocalized_vectors.

(** * Proofs *)

(** ** Enumeration of primitives *)

Module Enumeration.
Local Open Scope nat_scope.

Example merge_chain :
  merge_fragments [[0; 1]; [2; 3]; [1; 2]] = Ok [[2; 3; 0; 1]].
Proof. reflexivity. Qed.

Example bends_triangle :
  set_bending_indices [(0, 1); (0, 2); (1, 2)] = Ok [(1, 0, 2); (0, 1, 2); (0, 2, 1)].
Proof. reflexivity. Qed.

Example dihedral_chain :
  set_dihedral_indices [(0, 1); (1, 2); (2, 3)] [(0, 1, 2); (1, 2, 3)] = [[0; 1; 2; 3]].
Proof. reflexivity. Qed.

Ltac nat_split :=
  repeat (first
   [ match goal with H : context [Nat.eqb ?x ?y] |- _ => destruct (Nat.eqb_spec x y); subst end
   | match goal with |- context [Nat.eqb ?x ?y] => destruct (Nat.eqb_spec x y); subst end
   | match goal with H : context [Nat.leb ?x ?y] |- _ => destruct (Nat.leb_spec x y) end
   | match goal with |- context [Nat.leb ?x ?y] => destruct (Nat.leb_spec x y) end ];
   simpl in *; try discriminate; try lia).

Lemma sort_by_central_char : forall a b x y t1 c t2,
  a <= b -> x <= y ->
  sort_by_central (a, b) (x, y) = Ok (t1, c, t2) ->
  ((a, b) = norm_pair (c, t1) /\ (x, y) = norm_pair (c, t2)) \/
  ((a, b) = norm_pair (c, t2) /\ (x, y) = norm_pair (c, t1)).
Proof.
  intros a b x y t1 c t2 Hab Hxy H.
  unfold sort_by_central, pset, inter, union, diff, norm_pair in *; simpl in *.
  nat_split; injection H; intros; subst; nat_split;
  first [ left; split; f_equal; lia | right; split; f_equal; lia ].
Qed.

Definition same_bend (b1 b2 : nat * nat * nat) : Prop :=
  let '(t1, c, t2) := b1 in
  let '(t1', c', t2') := b2 in
  c = c' /\ ((t1 = t1' /\ t2 = t2') \/ (t1 = t2' /\ t2 = t1')).

Definition same_unordered (p q : (nat * nat) * (nat * nat)) : Prop :=
  p = q \/ (fst p = snd q /\ snd p = fst q).

Definition distinct_sets (l : list (list nat)) : Prop :=
  ForallOrdPairs (fun a b => set_eqb a b = false) l.

Lemma same_bend_same_bonds : forall s1 s2 s1' s2' b b',
  fst s1 <= snd s1 -> fst s2 <= snd s2 -> fst s1' <= snd s1' -> fst s2' <= snd s2' ->
  sort_by_central s1 s2 = Ok b -> sort_by_central s1' s2' = Ok b' -> same_bend b b' ->
  same_unordered (s1, s2) (s1', s2').
Proof.
  intros [a a0] [x x0] [e e0] [y y0] [[t1 c] t2] [[t1' c'] t2']; simpl.
  intros H1 H2 H3 H4 E E' [Hc Ht]; subst c'.
  apply sort_by_central_char in E; auto. apply sort_by_central_char in E'; auto.
  unfold same_unordered; simpl.
  destruct Ht as [[-> ->] | [-> ->]];
  destruct E as [[E1 E2]|[E1 E2]]; destruct E' as [[E3 E4]|[E3 E4]];
  rewrite E1, E2, E3, E4; (left; reflexivity) || (right; split; reflexivity).
Qed.

Lemma in_combinations2 {A : Type} : forall (l : list A) p q,
  In (p, q) (combinations2 l) -> In p l /\ In q l.
Proof.
  induction l as [|x t IH]; simpl; intros p q H; [contradiction|].
  apply in_app_or in H as [H|H].
  - apply in_map_iff in H as [y [Hy Hin]]. injection Hy as <- <-. auto.
  - apply IH in H as [? ?]; auto.
Qed.

Lemma ForallOrdPairs_app {A : Type} (Rl : A -> A -> Prop) l1 l2 :
  ForallOrdPairs Rl l1 -> ForallOrdPairs Rl l2 ->
  (forall a b, In a l1 -> In b l2 -> Rl a b) -> ForallOrdPairs Rl (l1 ++ l2).
Proof.
  induction l1 as [|a l1 IH]; simpl; intros H1 H2 H3; auto.
  inversion H1; subst. constructor.
  - apply Forall_app; split; auto; rewrite Forall_forall; intros; apply H3; simpl; auto.
  - apply IH; auto; intros; apply H3; simpl; auto.
Qed.

Lemma map_pair_distinct : forall (x : nat * nat) t, ~ In x t -> NoDup t ->
  ForallOrdPairs (fun p q => ~ same_unordered p q) (map (fun y => (x, y)) t).
Proof.
  intros x t; induction t as [|y t IH]; simpl; intros Hx Hnd; [constructor|].
  inversion Hnd as [|? ? Hy Ht]; subst. constructor.
  - rewrite Forall_forall; intros q Hq. apply in_map_iff in Hq as [z [<- Hz]].
    unfold same_unordered; simpl; intros [E|[E1 E2]].
    + injection E as E; subst; contradiction.
    + subst; apply Hx; right; assumption.
  - apply IH; auto.
Qed.

Lemma combinations2_distinct : forall l : list (nat * nat), NoDup l ->
  ForallOrdPairs (fun p q => ~ same_unordered p q) (combinations2 l).
Proof.
  induction l as [|x t IH]; simpl; intros Hnd; [constructor|].
  inversion Hnd as [|? ? Hx Ht]; subst.
  apply ForallOrdPairs_app; auto using map_pair_distinct.
  intros a b Ha Hb. apply in_map_iff in Ha as [y [<- Hy]].
  destruct b as [u v]. apply in_combinations2 in Hb as [Hu Hv].
  unfold same_unordered; simpl; intros [E|[E1 E2]].
  - injection E as E1 E2; subst; contradiction.
  - subst; contradiction.
Qed.

Lemma bends_of_in : forall ps bs b', bends_of ps = Ok bs -> In b' bs ->
  exists s1 s2, In (s1, s2) ps /\ sort_by_central s1 s2 = Ok b'.
Proof.
  induction ps as [|[s1 s2] t IH]; simpl; intros bs b' H Hin.
  - injection H as <-; contradiction.
  - destruct (card _ =? 3).
    + destruct (sort_by_central s1 s2) as [b|e] eqn:E; simpl in H; [|discriminate].
      destruct (bends_of t) as [bs'|e] eqn:E2; simpl in H; [|discriminate].
      injection H as <-. destruct Hin as [<-|Hin].
      * exists s1, s2; auto.
      * destruct (IH bs' b' eq_refl Hin) as (u & v & ? & ?); exists u, v; auto.
    + destruct (IH bs b' H Hin) as (u & v & ? & ?); exists u, v; auto.
Qed.

Lemma bends_of_distinct : forall ps bs,
  ForallOrdPairs (fun p q => ~ same_unordered p q) ps ->
  (forall s1 s2, In (s1, s2) ps -> fst s1 <= snd s1 /\ fst s2 <= snd s2) ->
  bends_of ps = Ok bs -> ForallOrdPairs (fun b b' => ~ same_bend b b') bs.
Proof.
  induction ps as [|[s1 s2] t IH]; simpl; intros bs Hd Hn H.
  - injection H as <-; constructor.
  - inversion Hd as [|? ? Hhd Htl]; subst.
    destruct (card _ =? 3).
    + destruct (sort_by_central s1 s2) as [b|e] eqn:E; simpl in H; [|discriminate].
      destruct (bends_of t) as [bs'|e] eqn:E2; simpl in H; [|discriminate].
      injection H as <-. constructor.
      * rewrite Forall_forall; intros b' Hb' Hsame.
        destruct (bends_of_in t bs' b' E2 Hb') as (u & v & Hin & E').
        rewrite Forall_forall in Hhd. apply (Hhd _ Hin).
        destruct (Hn s1 s2) as [? ?]; [left; reflexivity|].
        destruct (Hn u v) as [? ?]; [right; exact Hin|].
        eapply same_bend_same_bonds; eauto.
      * eapply IH; eauto.
    + eapply IH; eauto.
Qed.

Lemma set_eqb_sym : forall a b, set_eqb a b = set_eqb b a.
Proof. intros; unfold set_eqb; apply andb_comm. Qed.

Lemma ForallOrdPairs_snoc {A : Type} (Rl : A -> A -> Prop) (l : list A) (d : A) :
  ForallOrdPairs Rl l -> Forall (fun y => Rl y d) l -> ForallOrdPairs Rl (l ++ [d]).
Proof.
  intros H1 H2. apply ForallOrdPairs_app; auto.
  - repeat constructor.
  - intros a b Ha [<-|[]]. rewrite Forall_forall in H2; auto.
Qed.

Lemma dihedral_step_inv : forall x bb, distinct_sets x ->
  exists y, dihedral_step (x, x) bb = (y, y) /\ distinct_sets y.
Proof.
  intros x bb Hx; unfold dihedral_step.
  destruct (dihedral_candidate (fst bb) (snd bb)) as [d|]; [|exists x; auto].
  destruct (existsb (set_eqb d) x) eqn:Ex; [exists x; auto|].
  eexists; split; [reflexivity|].
  apply ForallOrdPairs_snoc; auto.
  rewrite Forall_forall; intros y Hy. rewrite set_eqb_sym.
  destruct (set_eqb d y) eqn:Ed; auto.
  rewrite <- Ex. symmetry. apply existsb_exists. exists y; auto.
Qed.

Lemma dihedral_fold_inv : forall l x, distinct_sets x ->
  exists y, fold_left dihedral_step l (x, x) = (y, y) /\ distinct_sets y.
Proof.
  induction l as [|bb l IH]; intros x Hx; cbn [fold_left].
  - exists x; auto.
  - destruct (dihedral_step_inv x bb Hx) as [y [-> Hy]]. apply IH; exact Hy.
Qed.

(** C5 (amended): for every bond list, the bends that [set_bending_indices]
    produces are pairwise different as (center, unordered pair of
    terminals), and the dihedrals of [set_dihedral_indices] are pairwise
    different as unordered sets of atoms.  Bends that share their unordered
    atom set do occur (see [triangle_bends_share_atom_set]). *)
Theorem primitives_distinct_by_design : forall bonds bends,
  set_bending_indices bonds = Ok bends ->
  ForallOrdPairs (fun b b' => ~ same_bend b b') bends /\
  distinct_sets (set_dihedral_indices bonds bends).
Proof.
  intros bonds bends H; split.
  - unfold set_bending_indices in H. eapply bends_of_distinct; [| |exact H].
    + apply combinations2_distinct, NoDup_nodup.
    + intros s1 s2 Hin. apply in_combinations2 in Hin as [H1 H2].
      apply nodup_In, in_map_iff in H1 as [p1 [<- _]].
      apply nodup_In, in_map_iff in H2 as [p2 [<- _]].
      destruct p1 as [a b], p2 as [c d]; unfold norm_pair; simpl.
      destruct (Nat.leb_spec a b), (Nat.leb_spec c d); simpl; lia.
  - unfold set_dihedral_indices.
    destruct (dihedral_fold_inv (list_prod bonds bends) [] (FOP_nil _)) as [y [E Hy]].
    rewrite E. exact Hy.
Qed.

Lemma primitives_distinct_by_design_witness :
  exists bends, set_bending_indices [(0, 1); (1, 2); (2, 3)] = Ok bends /\
  ForallOrdPairs (fun b b' => ~ same_bend b b') bends /\
  distinct_sets (set_dihedral_indices [(0, 1); (1, 2); (2, 3)] bends).
Proof.
  eexists; split; [reflexivity|].
  apply primitives_distinct_by_design. reflexivity.
Defined.

(** C5 counterexample: three mutually bonded atoms give three bends, one per
    center, all on the unordered atom set {0, 1, 2}. *)
Lemma triangle_bends_share_atom_set :
  exists bends, set_bending_indices [(0, 1); (0, 2); (1, 2)] = Ok bends /\
  length bends = 3 /\
  set_eqb [1; 0; 2] [0; 1; 2] = true /\ set_eqb [0; 1; 2] [0; 2; 1] = true /\
  bends = [(1, 0, 2); (0, 1, 2); (0, 2, 1)].
Proof. eexists; repeat split; reflexivity. Qed.

End Enumeration.

(** ** The delocalised subspace *)

(** C7: [set_delocalized_vectors] never yields the 3N-6 active vectors nor
    reaches its assertion: its first line reads [self.B_prim], an attribute
    that neither [RedundantCoords] nor [DelocalizedCoords] defines, so it
    raises [AttributeError] on every object, for every [eigh] and threshold. *)
Theorem set_delocalized_vectors_raises :
  forall eigh (self : RedundantCoords) thresh,
    set_delocalized_vectors eigh self thresh = Err AttributeError.
Proof. intros; reflexivity. Qed.

(** ** Translational invariance of the gradient rows *)

Module Gradients.

(** the sum of the per-atom blocks of a gradient row *)
Definition vsum (l : list vec3) : vec3 := fold_right vadd v0 l.

Ltac vec_eq :=
  repeat match goal with v : vec3 |- _ => destruct v end;
  unfold vadd, vsub, vopp, vscale, v0; simpl; f_equal; ring.

Lemma reshape3_flatten : forall l, reshape3 (flatten l) = l.
Proof. induction l as [|[x y z] t IH]; simpl; [reflexivity|]. rewrite IH; reflexivity. Qed.

Lemma length_set_nth {A : Type} : forall i (x : A) l, length (set_nth i x l) = length l.
Proof. induction i; destruct l; simpl; auto. Qed.

Lemma nth_set_nth_eq {A : Type} : forall i (x d : A) l,
  (i < length l)%nat -> nth i (set_nth i x l) d = x.
Proof.
  induction i; destruct l; simpl; intros; try lia; auto.
  all: apply IHi; lia.
Qed.

Lemma nth_set_nth_neq {A : Type} : forall i j (x d : A) l,
  i <> j -> nth j (set_nth i x l) d = nth j l d.
Proof.
  induction i; destruct l, j; simpl; intros; auto; try lia.
  all: apply IHi; lia.
Qed.

Lemma vsum_set_nth : forall i x l, (i < length l)%nat ->
  vsum (set_nth i x l) = vadd (vsub (vsum l) (nth i l v0)) x.
Proof.
  induction i; destruct l as [|y t]; simpl; intros H; try lia.
  - vec_eq.
  - rewrite IHi by lia. vec_eq.
Qed.

Lemma nth_zeros : forall c j, nth j (zeros_like c) v0 = v0.
Proof. intros c j. unfold zeros_like. revert j; induction (length c); destruct j; simpl; auto. Qed.

Lemma vsum_zeros : forall c, vsum (zeros_like c) = v0.
Proof.
  intros c. unfold zeros_like. induction (length c); simpl; [reflexivity|].
  rewrite IHn. vec_eq.
Qed.

Lemma length_zeros : forall c, length (zeros_like c) = length c.
Proof. intros c. apply repeat_length. Qed.

Ltac rows :=
  repeat first
    [ rewrite vsum_set_nth by (repeat rewrite length_set_nth; rewrite length_zeros; lia)
    | rewrite nth_set_nth_eq by (repeat rewrite length_set_nth; rewrite length_zeros; lia)
    | rewrite nth_set_nth_neq by lia
    | rewrite nth_zeros | rewrite vsum_zeros ].

(** C6: for distinct atom indices inside the geometry, the gradient row of
    each primitive, cut into per-atom 3-vectors, sums to the zero vector.
    For a stretch the block of the first atom is the negative of the block
    of the second; for a bend the block of the central atom is the negative
    of the sum of the two terminal blocks; for a dihedral the four blocks sum
    to zero.  (Every block other than those of the primitive's atoms is
    zero.) *)
Theorem gradient_blocks_sum_to_zero : forall coords : list vec3,
  (forall n m, n <> m -> (n < length coords)%nat -> (m < length coords)%nat ->
     let r := reshape3 (snd (calc_stretch coords (n, m))) in
     nth n r v0 = vopp (nth m r v0) /\ vsum r = v0) /\
  (forall m o n, m <> o -> m <> n -> o <> n ->
     (m < length coords)%nat -> (o < length coords)%nat -> (n < length coords)%nat ->
     let r := reshape3 (snd (calc_bend coords (m, o, n))) in
     nth o r v0 = vopp (vadd (nth m r v0) (nth n r v0)) /\ vsum r = v0) /\
  (forall m o p n, NoDup [m; o; p; n] ->
     (m < length coords)%nat -> (o < length coords)%nat ->
     (p < length coords)%nat -> (n < length coords)%nat ->
     let r := reshape3 (snd (calc_dihedral coords [m; o; p; n])) in
     vadd (vadd (nth m r v0) (nth o r v0)) (vadd (nth p r v0) (nth n r v0)) = v0 /\
     vsum r = v0).
Proof.
  intros c. split; [|split].
  - intros n m Hnm Hn Hm r. subst r. unfold calc_stretch. cbv beta iota zeta.
    cbn [snd]. rewrite reshape3_flatten. rows. split; vec_eq.
  - intros m o n H1 H2 H3 Hm Ho Hn r. subst r. unfold calc_bend. cbv beta iota zeta.
    cbn [snd]. rewrite reshape3_flatten. rows. split; vec_eq.
  - intros m o p n Hnd Hm Ho Hp Hn r. subst r.
    rewrite NoDup_cons_iff in Hnd; destruct Hnd as [Hm' Hnd]; simpl in Hm'.
    rewrite NoDup_cons_iff in Hnd; destruct Hnd as [Ho' Hnd]; simpl in Ho'.
    rewrite NoDup_cons_iff in Hnd; destruct Hnd as [Hp' _]; simpl in Hp'.
    unfold calc_dihedral. cbv beta iota zeta.
    cbn [snd]. rewrite reshape3_flatten. rows; try (intro; subst; tauto).
    split; vec_eq.
Qed.

Definition tetra : list vec3 := [V3 0 0 0; V3 1 0 0; V3 0 1 0; V3 0 0 1].

Lemma gradient_blocks_sum_to_zero_witness :
  vsum (reshape3 (snd (calc_stretch tetra (0%nat, 1%nat)))) = v0 /\
  vsum (reshape3 (snd (calc_bend tetra (1%nat, 0%nat, 2%nat)))) = v0 /\
  vsum (reshape3 (snd (calc_dihedral tetra [0%nat; 1%nat; 2%nat; 3%nat]))) = v0.
Proof.
  destruct (gradient_blocks_sum_to_zero tetra) as [Hs [Hb Hd]].
  split; [|split].
  - exact (proj2 (Hs 0%nat 1%nat ltac:(lia) ltac:(simpl; lia) ltac:(simpl; lia))).
  - exact (proj2 (Hb 1%nat 0%nat 2%nat ltac:(lia) ltac:(lia) ltac:(lia)
                     ltac:(simpl; lia) ltac:(simpl; lia) ltac:(simpl; lia))).
  - refine (proj2 (Hd 0%nat 1%nat 2%nat 3%nat _ ltac:(simpl; lia) ltac:(simpl; lia)
                     ltac:(simpl; lia) ltac:(simpl; lia))).
    repeat constructor; simpl; lia.
Defined.

End Gradients.

(** ** Sample inputs and computations on them *)

Module Samples.
Local Open Scope R_scope.

Definition sample_radii (s : string) : R :=
  if String.eqb s "h" then 59 / 100 else if String.eqb s "o" then 125 / 100 else 0.

Definition h3_geom : Geometry :=
  {| atoms := ["H"; "H"; "H"]%string; coords := [0; 0; 0; 1; 0; 0; 2; 0; 0] |}.

Lemma sqrt_sq_eq : forall x y, 0 <= y -> x = y * y -> sqrt x = y.
Proof. intros x y Hy ->. apply sqrt_square, Hy. Qed.

Lemma h3_pdist : pdist (reshape3 (coords h3_geom)) = [1; 2; 1].
Proof.
  unfold pdist. simpl.
  f_equal; [|f_equal; [|f_equal]]; apply sqrt_sq_eq; unfold vdot, vsub; simpl; lra.
Qed.

Lemma Rleb_true : forall x y, x <= y -> Rleb x y = true.
Proof. intros x y H. unfold Rleb. destruct (Rle_dec x y); [reflexivity | contradiction]. Qed.
Lemma Rleb_false : forall x y, y < x -> Rleb x y = false.
Proof. intros x y H. unfold Rleb. destruct (Rle_dec x y); [lra | reflexivity]. Qed.

Lemma h3_bonds : set_bond_indices sample_radii h3_geom (13 / 10) = Ok [(0, 1); (1, 2)]%nat.
Proof.
  unfold set_bond_indices. rewrite h3_pdist. simpl.
  assert (Hr : sample_radii (String (lower_ascii "H") "") = 59 / 100) by reflexivity.
  rewrite Hr.
  rewrite (Rleb_true 1) by lra. rewrite (Rleb_false 2) by lra.
  reflexivity.
Qed.

Ltac leq :=
  lazymatch goal with
  | |- (_ :: _) = (_ :: _) => refine (f_equal2 cons _ _); [|leq]
  | |- [] = [] => reflexivity
  | |- _ => idtac
  end.

Lemma vnorm_sq : forall v y, 0 <= y -> vdot v v = y * y -> vnorm v = y.
Proof. intros v y Hy H. unfold vnorm. rewrite H. apply sqrt_square, Hy. Qed.

Lemma stretch_x : forall c n m xn xm,
  nth n c v0 = V3 xn 0 0 -> nth m c v0 = V3 xm 0 0 -> xn < xm ->
  calc_stretch c (n, m) =
    (xm - xn, flatten (set_nth n (V3 (-1) 0 0) (set_nth m (V3 1 0 0) (zeros_like c)))).
Proof.
  intros c n m xn xm Hn Hm Hlt. unfold calc_stretch. rewrite Hn, Hm.
  rewrite (vnorm_sq _ (xm - xn)) by (unfold vdot, vsub; simpl; nra).
  cbv beta iota zeta.
  assert (E : vdiv (vsub (V3 xm 0 0) (V3 xn 0 0)) (xm - xn) = V3 1 0 0).
  { unfold vdiv, vscale, vsub; simpl. f_equal; field; lra. }
  rewrite E.
  replace (vscale 1 (V3 1 0 0)) with (V3 1 0 0) by (unfold vscale; simpl; f_equal; ring).
  replace (vscale (-1) (V3 1 0 0)) with (V3 (-1) 0 0) by (unfold vscale; simpl; f_equal; ring).
  reflexivity.
Qed.

Lemma Rltb_spec : forall x y, Rltb x y = true <-> x < y.
Proof. intros x y. unfold Rltb. destruct (Rlt_dec x y); split; intros; auto; discriminate. Qed.
Lemma Rltb_false : forall x y, y <= x -> Rltb x y = false.
Proof. intros x y H. unfold Rltb. destruct (Rlt_dec x y); [lra | reflexivity]. Qed.

Lemma acos_m1 : acos (-1) = PI.
Proof. replace (-1) with (Ropp 1) by ring. rewrite acos_opp, acos_1. ring. Qed.

Lemma PI_gt_2 : 2 < PI.
Proof. pose proof PI2_1. lra. Qed.

Lemma parallel_opposite_x : are_parallel (V3 (-1) 0 0) (V3 1 0 0) = true.
Proof.
  unfold are_parallel. replace (vdot _ _) with (-1) by (unfold vdot; simpl; ring).
  rewrite acos_m1, Rabs_pos_eq by (pose proof PI_gt_2; lra). apply Rltb_spec. lra.
Qed.

Lemma parallel_tmp_neg : are_parallel (V3 (-1) 0 0) (V3 1 (-1) 1) = true.
Proof.
  unfold are_parallel. replace (vdot _ _) with (-1) by (unfold vdot; simpl; ring).
  rewrite acos_m1, Rabs_pos_eq by (pose proof PI_gt_2; lra). apply Rltb_spec. lra.
Qed.

Lemma parallel_tmp_pos : are_parallel (V3 1 0 0) (V3 1 (-1) 1) = false.
Proof.
  unfold are_parallel. replace (vdot _ _) with 1 by (unfold vdot; simpl; ring).
  rewrite acos_1, Rabs_R0. apply Rltb_false. pose proof PI_gt_2. lra.
Qed.

Definition bend_block (d : R) : vec3 := vdiv (V3 0 (/ sqrt 2) (- / sqrt 2)) d.

Lemma bend_x : forall c m o n xm xo xn,
  nth m c v0 = V3 xm 0 0 -> nth o c v0 = V3 xo 0 0 -> nth n c v0 = V3 xn 0 0 ->
  xm < xo -> xo < xn ->
  calc_bend c (m, o, n) =
    (PI, flatten (set_nth n (bend_block (xn - xo))
                  (set_nth o (vsub (vopp (bend_block (xo - xm))) (bend_block (xn - xo)))
                   (set_nth m (bend_block (xo - xm)) (zeros_like c))))).
Proof.
  intros c m o n xm xo xn Hm Ho Hn H1 H2. unfold calc_bend. rewrite Hm, Ho, Hn.
  assert (Nu : vnorm (vsub (V3 xm 0 0) (V3 xo 0 0)) = xo - xm)
    by (apply vnorm_sq; [lra | unfold vdot, vsub; simpl; ring]).
  assert (Nv : vnorm (vsub (V3 xn 0 0) (V3 xo 0 0)) = xn - xo)
    by (apply vnorm_sq; [lra | unfold vdot, vsub; simpl; ring]).
  cbv beta iota zeta. rewrite Nu, Nv.
  replace (vdiv (vsub (V3 xm 0 0) (V3 xo 0 0)) (xo - xm)) with (V3 (-1) 0 0)
    by (unfold vdiv, vscale, vsub; simpl; f_equal; field; lra).
  replace (vdiv (vsub (V3 xn 0 0) (V3 xo 0 0)) (xn - xo)) with (V3 1 0 0)
    by (unfold vdiv, vscale, vsub; simpl; f_equal; field; lra).
  rewrite parallel_opposite_x, parallel_tmp_neg, parallel_tmp_pos. cbn [andb].
  replace (vdot (V3 (-1) 0 0) (V3 1 0 0)) with (-1) by (unfold vdot; simpl; ring).
  rewrite acos_m1.
  replace (vnorm (vcross (V3 (-1) 0 0) (V3 1 (-1) 1))) with (sqrt 2)
    by (unfold vnorm, vdot, vcross; simpl; f_equal; ring).
  replace (vdiv (vcross (V3 (-1) 0 0) (V3 1 (-1) 1)) (sqrt 2)) with (V3 0 (/ sqrt 2) (/ sqrt 2))
    by (unfold vdiv, vscale, vcross; simpl; f_equal; ring).
  replace (vcross (V3 (-1) 0 0) (V3 0 (/ sqrt 2) (/ sqrt 2))) with (V3 0 (/ sqrt 2) (- / sqrt 2))
    by (unfold vcross; simpl; f_equal; ring).
  replace (vcross (V3 0 (/ sqrt 2) (/ sqrt 2)) (V3 1 0 0)) with (V3 0 (/ sqrt 2) (- / sqrt 2))
    by (unfold vcross; simpl; f_equal; ring).
  reflexivity.
Qed.

Lemma h3_rho_ok : exists r, set_rho sample_radii h3_geom = Ok r.
Proof. unfold set_rho, broadcast. simpl. eexists. reflexivity. Qed.

Definition h3_x0 : list R := coords h3_geom.

Lemma h3_init : exists e, RedundantCoords_init sample_radii h3_geom = Ok e /\
  geom e = h3_geom /\ bond_indices e = [(0, 1); (1, 2)]%nat /\
  bending_indices e = [(0, 1, 2)]%nat /\ dihedral_indices e = [] /\
  _coords e = calculate [(0, 1); (1, 2)]%nat [(0, 1, 2)]%nat [] h3_x0.
Proof.
  destruct h3_rho_ok as [r Hr].
  unfold RedundantCoords_init. rewrite h3_bonds. cbn [bind].
  change (set_bending_indices [(0, 1); (1, 2)]%nat) with (Ok [(0, 1, 2)]%nat : result _).
  cbn [bind]. rewrite Hr. cbn [bind].
  eexists; split; [reflexivity|]. repeat split.
Qed.

Lemma sqrt2_pos : 0 < sqrt 2.
Proof. apply sqrt_lt_R0. lra. Qed.

Lemma inv_sqrt2_sq : / sqrt 2 * / sqrt 2 = / 2.
Proof. rewrite <- Rinv_mult, sqrt_sqrt by lra. reflexivity. Qed.

Ltac rsolve := pose proof sqrt2_pos; first [ring | field; lra].

Definition h3_B : list (list R) :=
  [[-1; 0; 0; 1; 0; 0; 0; 0; 0];
   [0; 0; 0; -1; 0; 0; 1; 0; 0];
   [0; / sqrt 2; - / sqrt 2; 0; - 2 * / sqrt 2; 2 * / sqrt 2; 0; / sqrt 2; - / sqrt 2]].

Lemma h3_grads :
  map grad (calculate [(0, 1); (1, 2)]%nat [(0, 1, 2)]%nat [] h3_x0) = h3_B.
Proof.
  unfold calculate. cbn [map app].
  set (c := reshape3 h3_x0).
  rewrite (stretch_x c 0 1 0 1) by (reflexivity || lra).
  rewrite (stretch_x c 1 2 1 2) by (reflexivity || lra).
  rewrite (bend_x c 0 1 2 0 1 2) by (reflexivity || lra).
  unfold bend_block, vdiv, vscale, vsub, vopp. simpl. unfold h3_B.
  repeat leq; rsolve.
Qed.

Definition h3_G : list (list R) := [[2; -1; 0]; [-1; 2; 0]; [0; 0; 6]].
Definition h3_G_inv : list (list R) := [[2 / 3; 1 / 3; 0]; [1 / 3; 2 / 3; 0]; [0; 0; 1 / 6]].

Lemma h3_G_eq : matmul h3_B (transpose h3_B) = h3_G.
Proof.
  unfold h3_B, h3_G, matmul, transpose, ldot. simpl.
  pose proof inv_sqrt2_sq. repeat leq; nra.
Qed.

Lemma h3_G_inv_is_pinv : is_pinv h3_G h3_G_inv.
Proof.
  unfold is_pinv, h3_G, h3_G_inv, matmul, transpose, ldot. simpl.
  repeat split; try (repeat constructor; reflexivity); repeat leq; field.
Qed.

Lemma h3_G_pinv_unique : forall X, is_pinv h3_G X -> X = h3_G_inv.
Proof.
  intros X (HX & Hrows & H1 & _).
  destruct X as [|r1 [|r2 [|r3 [|r4 X]]]]; simpl in HX; try discriminate.
  inversion Hrows as [|? ? L1 Hr]; subst. inversion Hr as [|? ? L2 Hr']; subst.
  inversion Hr' as [|? ? L3 _]; subst.
  destruct r1 as [|a1 [|a2 [|a3 [|]]]]; simpl in L1; try discriminate.
  destruct r2 as [|b1 [|b2 [|b3 [|]]]]; simpl in L2; try discriminate.
  destruct r3 as [|c1 [|c2 [|c3 [|]]]]; simpl in L3; try discriminate.
  unfold h3_G, matmul, transpose, ldot in H1. simpl in H1.
  injection H1. intros. unfold h3_G_inv. repeat leq; lra.
Qed.

Lemma h3_pinv : pinv h3_G = h3_G_inv.
Proof.
  apply h3_G_pinv_unique. unfold pinv. apply epsilon_spec.
  exists h3_G_inv. exact h3_G_inv_is_pinv.
Qed.

End Samples.

(** ** The back-transformation loop *)

Module BackTransform.
Import Samples.
Local Open Scope R_scope.

Section Loop.
Variable self : RedundantCoords.
Variable BT : list (list R).
Variable a : nat.
Variable thr : R.

Definition bt_state : Type := (list R * list R * list R)%type.

Definition bt_next (st : bt_state) : bt_state :=
  let '(x, q, s) := st in
  let x' := ladd x (matvec BT s) in
  let q' := calc_vals self x' in
  (x', q', lsub s (lsub q' q)).

Definition bt_iter (k : nat) (st : bt_state) : bt_state := Nat.iter k bt_next st.

Definition bt_x (st : bt_state) : list R := fst (fst st).

Definition bt_rms (st : bt_state) : R := rms (bt_x st) (bt_x (bt_next st)).

Fixpoint bt_cycles (fuel : nat) (st : bt_state) : nat :=
  match fuel with
  | O => O
  | S f => if Rltb (bt_rms st) thr then 1%nat else S (bt_cycles f (bt_next st))
  end.

Fixpoint bt_converged (fuel : nat) (st : bt_state) : bool :=
  match fuel with
  | O => false
  | S f => if Rltb (bt_rms st) thr then true else bt_converged f (bt_next st)
  end.

Definition cycle_lines (i n : nat) (st : bt_state) : list printed_line :=
  map (fun k => Cycle (i + k) (bt_rms (bt_iter k st))) (seq 0 n).

Lemma bt_iter_S : forall k st, bt_iter (S k) st = bt_iter k (bt_next st).
Proof.
  induction k; intros st; [reflexivity|].
  change (bt_next (bt_iter (S k) st) = bt_iter (S k) (bt_next st)).
  rewrite IHk. reflexivity.
Qed.

Lemma cycle_lines_S : forall i n st,
  cycle_lines i (S n) st = Cycle i (bt_rms st) :: cycle_lines (S i) n (bt_next st).
Proof.
  intros i n st. unfold cycle_lines. simpl. rewrite Nat.add_0_r. f_equal.
  rewrite <- seq_shift, map_map. apply map_ext. intros k.
  rewrite bt_iter_S, Nat.add_succ_r. reflexivity.
Qed.

Lemma transform_loop_spec : forall fuel i w x q,
  let st := (x, q, heap w a) in
  let n := bt_cycles fuel st in
  let r := transform_loop self BT a thr fuel i w x q in
  snd r = bt_x (bt_iter n st) /\
  geom_coords (fst r) = geom_coords w /\
  heap (fst r) a = snd (bt_iter n st) /\
  (forall b, b <> a -> heap (fst r) b = heap w b) /\
  stdout (fst r) = stdout w ++ cycle_lines i n st ++
                   (if bt_converged fuel st then [Converged_msg] else []).
Proof.
  induction fuel as [|f IH]; intros i w x q st n r.
  - subst st n r. simpl. rewrite !app_nil_r. repeat split; auto.
  - subst st n r. cbn [transform_loop bt_cycles bt_converged].
    set (st := (x, q, heap w a)).
    change (rms x (ladd x (matvec BT (heap w a)))) with (bt_rms st).
    set (s' := lsub (heap w a) (lsub (calc_vals self (ladd x (matvec BT (heap w a)))) q)).
    destruct (Rltb (bt_rms st) thr).
    + simpl. rewrite Nat.eqb_refl. repeat split.
      * intros b Hb. apply Nat.eqb_neq in Hb. rewrite Hb. reflexivity.
      * unfold cycle_lines. simpl. rewrite Nat.add_0_r, <- app_assoc. reflexivity.
    + set (w2 := print (heap_store w a s') (Cycle i (bt_rms st))).
      set (x' := ladd x (matvec BT (heap w a))).
      set (q' := calc_vals self x').
      assert (Hst : (x', q', heap w2 a) = bt_next st).
      { subst w2 st. simpl. rewrite Nat.eqb_refl. reflexivity. }
      destruct (IH (S i) w2 x' q') as (H1 & H2 & H3 & H4 & H5).
      rewrite Hst in H1, H3, H5. repeat split.
      * rewrite H1. rewrite bt_iter_S. reflexivity.
      * rewrite H2. reflexivity.
      * rewrite H3. rewrite bt_iter_S. reflexivity.
      * intros b Hb. rewrite H4 by exact Hb. subst w2. simpl.
        apply Nat.eqb_neq in Hb. rewrite Hb. reflexivity.
      * rewrite H5. subst w2. cbn [stdout print heap_store]. rewrite cycle_lines_S, <- !app_assoc. reflexivity.
Qed.

Lemma bt_cycles_le : forall fuel st, (bt_cycles fuel st <= fuel)%nat.
Proof.
  induction fuel; intros st; simpl; [lia|].
  destruct (Rltb _ _); [lia|]. pose proof (IHfuel (bt_next st)). lia.
Qed.

Lemma bt_cycles_pos : forall fuel st, (1 <= fuel)%nat -> (1 <= bt_cycles fuel st)%nat.
Proof. destruct fuel; intros st H; simpl; [lia|]. destruct (Rltb _ _); lia. Qed.

Lemma bt_cycles_before_last : forall fuel st k,
  (k + 1 < bt_cycles fuel st)%nat -> ~ bt_rms (bt_iter k st) < thr.
Proof.
  induction fuel; intros st k H; simpl in H; [lia|].
  destruct (Rltb (bt_rms st) thr) eqn:E; [lia|].
  destruct k as [|k].
  - intros Hlt. apply Rltb_spec in Hlt. simpl in Hlt. congruence.
  - rewrite bt_iter_S. apply IHfuel. lia.
Qed.

Lemma bt_converged_true : forall fuel st, bt_converged fuel st = true ->
  bt_rms (bt_iter (bt_cycles fuel st - 1) st) < thr.
Proof.
  induction fuel; intros st H; simpl in H; [discriminate|]. simpl.
  destruct (Rltb (bt_rms st) thr) eqn:E.
  - apply Rltb_spec. exact E.
  - specialize (IHfuel _ H). destruct fuel; [discriminate|].
    pose proof (bt_cycles_pos (S fuel) (bt_next st)) as P.
    replace (S (bt_cycles (S fuel) (bt_next st)) - 1)%nat
      with (S (bt_cycles (S fuel) (bt_next st) - 1)) by lia.
    rewrite bt_iter_S. exact IHfuel.
Qed.

Lemma bt_converged_false : forall fuel st, bt_converged fuel st = false ->
  bt_cycles fuel st = fuel /\ forall k, (k < fuel)%nat -> ~ bt_rms (bt_iter k st) < thr.
Proof.
  induction fuel; intros st H; simpl in H; [split; [reflexivity | intros; lia]|]. simpl.
  destruct (Rltb (bt_rms st) thr) eqn:E; [discriminate|].
  destruct (IHfuel _ H) as [H1 H2]. split; [lia|].
  intros [|k] Hk.
  - intros Hlt. apply Rltb_spec in Hlt. simpl in Hlt. congruence.
  - rewrite bt_iter_S. apply H2. lia.
Qed.

End Loop.

Lemma transform_spec : forall self w a thr,
  length (heap w a) = length (B_inv self) ->
  let BT := transpose (B_inv self) in
  let st0 := (geom_coords w, calc_vals self (geom_coords w), heap w a) in
  let n := bt_cycles self BT thr 25 st0 in
  exists w', transform self w a thr = Ok (w', tt) /\
    geom_coords w' = bt_x (bt_iter self BT n st0) /\
    heap w' a = snd (bt_iter self BT n st0) /\
    (forall b, b <> a -> heap w' b = heap w b) /\
    stdout w' = stdout w ++ cycle_lines self BT 0 n st0 ++
                (if bt_converged self BT thr 25 st0 then [Converged_msg] else []).
Proof.
  intros self w a thr Hlen BT st0 n. unfold transform.
  rewrite Hlen, Nat.eqb_refl. cbn [negb].
  destruct (transform_loop_spec self (transpose (B_inv self)) a thr 25 0 w
              (geom_coords w) (calc_vals self (geom_coords w))) as (H1 & H2 & H3 & H4 & H5).
  destruct (transform_loop self (transpose (B_inv self)) a thr 25 0 w
              (geom_coords w) (calc_vals self (geom_coords w))) as [w' c'] eqn:E.
  cbn [fst snd] in H1, H2, H3, H4, H5.
  exists (set_geom_coords w' c'). repeat split; cbn [geom_coords heap stdout set_geom_coords].
  - rewrite H1. reflexivity.
  - exact H3.
  - intros b Hb. apply H4, Hb.
  - exact H5.
Qed.

Lemma rms_self : forall x, rms x x = 0.
Proof.
  intros x. unfold rms.
  assert (H : lsum (map (fun y => y ^ 2) (lsub x x)) = 0).
  { induction x as [|h t IH]; [reflexivity|]. unfold lsum, lsub in *. cbn [fold_right map combine fst snd]. rewrite IH. ring. }
  rewrite H. unfold Rdiv. rewrite Rmult_0_l. apply sqrt_0.
Qed.

Lemma bt_converged_nonpos : forall self BT thr fuel st, thr <= 0 ->
  bt_converged self BT thr fuel st = false.
Proof.
  intros self BT thr fuel. induction fuel; intros st H; simpl; [reflexivity|].
  rewrite Rltb_false; [apply IHfuel, H|]. unfold bt_rms, rms.
  pose proof (sqrt_pos (lsum (map (fun x => x ^ 2) (lsub (bt_x st) (bt_x (bt_next self BT st))))
                         / INR (length (lsub (bt_x st) (bt_x (bt_next self BT st)))))). lra.
Qed.

Lemma cycle_lines_no_converged : forall self BT i n st,
  ~ In Converged_msg (cycle_lines self BT i n st).
Proof. intros. unfold cycle_lines. rewrite in_map_iff. intros [k [E _]]. discriminate. Qed.

Lemma h3_vals : forall a b c, a < b -> b < c ->
  map val (calculate [(0, 1); (1, 2)]%nat [(0, 1, 2)]%nat [] [a; 0; 0; b; 0; 0; c; 0; 0]) =
  [b - a; c - b; PI].
Proof.
  intros a b c H1 H2. unfold calculate. cbn [map app].
  set (co := reshape3 [a; 0; 0; b; 0; 0; c; 0; 0]).
  rewrite (stretch_x co 0 1 a b) by (reflexivity || lra).
  rewrite (stretch_x co 1 2 b c) by (reflexivity || lra).
  rewrite (bend_x co 0 1 2 a b c) by (reflexivity || lra).
  reflexivity.
Qed.

Definition h3_B_inv : list (list R) := matmul h3_G_inv h3_B.
Definition h3_x1 : list R := [-2; 0; 0; 2; 0; 0; 3; 0; 0].
Definition zero3 : list R := [0; 0; 0].

Section H3Run.
Variable e : RedundantCoords.
Hypothesis Hb : bond_indices e = [(0, 1); (1, 2)]%nat.
Hypothesis Hbe : bending_indices e = [(0, 1, 2)]%nat.
Hypothesis Hd : dihedral_indices e = [].
Hypothesis Hc : _coords e = calculate [(0, 1); (1, 2)]%nat [(0, 1, 2)]%nat [] h3_x0.

Lemma h3_B_inv_eq : B_inv e = h3_B_inv.
Proof.
  unfold B_inv, B. rewrite Hc, h3_grads, h3_G_eq, h3_pinv. reflexivity.
Qed.

Lemma h3_calc_vals : forall a b c, a < b -> b < c ->
  calc_vals e [a; 0; 0; b; 0; 0; c; 0; 0] = [b - a; c - b; PI].
Proof. intros. unfold calc_vals. rewrite Hb, Hbe, Hd. apply h3_vals; assumption. Qed.

Lemma h3_matvec_zero : matvec (transpose h3_B_inv) zero3 = repeat 0 9.
Proof.
  unfold h3_B_inv, h3_G_inv, h3_B, matvec, matmul, transpose, ldot. simpl.
  repeat leq; ring.
Qed.

Lemma h3_matvec_step : matvec (transpose h3_B_inv) [3; 0; 0] = [-2; 0; 0; 1; 0; 0; 1; 0; 0].
Proof.
  unfold h3_B_inv, h3_G_inv, h3_B, matvec, matmul, transpose, ldot. simpl.
  repeat leq; rsolve.
Qed.

Definition h3_q1 : list R := [4; 1; PI].

Lemma h3_next_x1 : bt_next e (transpose h3_B_inv) (h3_x1, h3_q1, zero3) = (h3_x1, h3_q1, zero3).
Proof.
  unfold bt_next. rewrite h3_matvec_zero.
  replace (ladd h3_x1 (repeat 0 9)) with h3_x1 by (unfold ladd, h3_x1; simpl; repeat leq; ring).
  unfold h3_x1. rewrite h3_calc_vals by lra.
  unfold h3_q1, zero3, lsub. simpl. repeat (f_equal; try ring).
Qed.

Definition h3_q0 : list R := [1; 1; PI].

Lemma h3_vals_x0 : calc_vals e h3_x0 = h3_q0.
Proof.
  unfold h3_x0, h3_geom. cbn [coords]. rewrite h3_calc_vals by lra.
  unfold h3_q0. repeat (f_equal; try ring).
Qed.

Lemma h3_next_x0 : bt_next e (transpose h3_B_inv) (h3_x0, h3_q0, [3; 0; 0]) = (h3_x1, h3_q1, zero3).
Proof.
  unfold bt_next. rewrite h3_matvec_step.
  replace (ladd h3_x0 [-2; 0; 0; 1; 0; 0; 1; 0; 0]) with h3_x1
    by (unfold ladd, h3_x1, h3_x0, h3_geom; simpl; repeat leq; ring).
  unfold h3_x1. rewrite h3_calc_vals by lra.
  unfold h3_q1, h3_q0, zero3, lsub. simpl. repeat (f_equal; try ring).
Qed.

Lemma h3_next_rest : bt_next e (transpose h3_B_inv) (h3_x0, h3_q0, zero3) = (h3_x0, h3_q0, zero3).
Proof.
  unfold bt_next. rewrite h3_matvec_zero.
  replace (ladd h3_x0 (repeat 0 9)) with h3_x0 by (unfold ladd, h3_x0, h3_geom; simpl; repeat leq; ring).
  rewrite h3_vals_x0. unfold h3_q0, zero3, lsub. simpl. repeat (f_equal; try ring).
Qed.

Lemma bt_iter_fixed : forall BT st k, bt_next e BT st = st -> bt_iter e BT k st = st.
Proof.
  intros BT st k H. induction k; [reflexivity|].
  change (bt_next e BT (bt_iter e BT k st) = st). rewrite IHk. exact H.
Qed.

End H3Run.

Definition h3_engine : RedundantCoords :=
  {| geom := h3_geom;
     _coords := calculate [(0, 1); (1, 2)]%nat [(0, 1, 2)]%nat [] h3_x0;
     bond_indices := [(0, 1); (1, 2)]%nat;
     bending_indices := [(0, 1, 2)]%nat;
     dihedral_indices := [];
     rho := match set_rho sample_radii h3_geom with Ok r => r | Err _ => [] end |}.

Definition h3_world (step : list R) : World := mkWorld h3_x0 (fun _ => step) [].

Lemma h3_init_engine : RedundantCoords_init sample_radii h3_geom = Ok h3_engine.
Proof.
  destruct h3_rho_ok as [r Hr].
  unfold RedundantCoords_init. rewrite h3_bonds. cbn [bind].
  change (set_bending_indices [(0, 1); (1, 2)]%nat) with (Ok [(0, 1, 2)]%nat : result _).
  cbn [bind]. rewrite Hr. cbn [bind]. unfold h3_engine. rewrite Hr. reflexivity.
Qed.

Lemma h3_engine_B_inv : B_inv h3_engine = h3_B_inv.
Proof. apply h3_B_inv_eq; reflexivity. Qed.

Lemma h3_engine_vals_x0 : calc_vals h3_engine h3_x0 = h3_q0.
Proof. apply h3_vals_x0; reflexivity. Qed.

Lemma bt_converged_S : forall self BT thr f st,
  bt_converged self BT thr (S f) st =
  if Rltb (bt_rms self BT st) thr then true else bt_converged self BT thr f (bt_next self BT st).
Proof. reflexivity. Qed.

(** The three hydrogens on a line, displaced by the internal step
    [(3, 0, 0)] with threshold 0: no cycle converges, no [Converged!] is
    printed, and the geometry still ends at a new position [h3_x1]. *)
Lemma transform_moves_geometry_without_convergence :
  exists w', RedundantCoords_init sample_radii h3_geom = Ok h3_engine /\
    transform h3_engine (h3_world [3; 0; 0]) 0 0 = Ok (w', tt) /\
    ~ In Converged_msg (stdout w') /\
    geom_coords w' = h3_x1 /\ h3_x1 <> h3_x0.
Proof.
  assert (Hlen : length (heap (h3_world [3; 0; 0]) 0) = length (B_inv h3_engine))
    by (rewrite h3_engine_B_inv; reflexivity).
  pose proof (transform_spec h3_engine (h3_world [3; 0; 0]) 0 0 Hlen) as T. cbv zeta in T.
  destruct T as (w' & Ht & Hgeo & _ & _ & Hout). exists w'.
  rewrite bt_converged_nonpos in Hout by lra.
  split; [exact h3_init_engine|]. split; [exact Ht|]. split.
  { rewrite Hout. cbn [stdout h3_world app]. rewrite app_nil_r. apply cycle_lines_no_converged. }
  split.
  - rewrite Hgeo. cbn [h3_world geom_coords heap].
    rewrite (proj1 (bt_converged_false _ _ _ _ _ (bt_converged_nonpos _ _ _ 25 _ (Rle_refl 0)))).
    rewrite h3_engine_B_inv, h3_engine_vals_x0, bt_iter_S, h3_next_x0 by reflexivity.
    rewrite bt_iter_fixed by (apply h3_next_x1; reflexivity). reflexivity.
  - unfold h3_x1, h3_x0, h3_geom. cbn [coords]. intros H. injection H. intros. lra.
Qed.

(** A zero step on the three hydrogens: with threshold [1e-6] the first
    cycle converges and [Converged!] is printed, with threshold 0 it never
    does; both calls return the same [None]. *)
Lemma transform_returns_same_value_converged_or_not :
  exists w1 w2, RedundantCoords_init sample_radii h3_geom = Ok h3_engine /\
    transform h3_engine (h3_world zero3) 0 (1 / 1000000) = Ok (w1, tt) /\
    In Converged_msg (stdout w1) /\
    transform h3_engine (h3_world zero3) 0 0 = Ok (w2, tt) /\
    ~ In Converged_msg (stdout w2).
Proof.
  assert (Hlen : length (heap (h3_world zero3) 0) = length (B_inv h3_engine))
    by (rewrite h3_engine_B_inv; reflexivity).
  pose proof (transform_spec h3_engine (h3_world zero3) 0 (1 / 1000000) Hlen) as T1. cbv zeta in T1.
  pose proof (transform_spec h3_engine (h3_world zero3) 0 0 Hlen) as T2. cbv zeta in T2.
  destruct T1 as (w1 & Ht1 & _ & _ & _ & Hout1).
  destruct T2 as (w2 & Ht2 & _ & _ & _ & Hout2).
  exists w1, w2. split; [exact h3_init_engine|]. split; [exact Ht1|]. split.
  - rewrite Hout1. cbn [h3_world geom_coords heap stdout].
    rewrite h3_engine_B_inv, h3_engine_vals_x0.
    change 25%nat with (S 24). rewrite bt_converged_S.
    unfold bt_rms. rewrite h3_next_rest by reflexivity. cbn [bt_x fst]. rewrite rms_self.
    rewrite (proj2 (Rltb_spec 0 (1 / 1000000))) by lra.
    apply in_or_app; right; apply in_or_app; right; left; reflexivity.
  - split; [exact Ht2|].
    rewrite Hout2, bt_converged_nonpos by lra. cbn [stdout h3_world app].
    rewrite app_nil_r. apply cycle_lines_no_converged.
Qed.

(** C3 (amended): [transform] runs [n] cycles, [1 <= n <= 25]; every cycle
    before the last has a Cartesian RMS at or above the threshold; either the
    last one is below it and [Converged!] is printed after the cycle lines,
    or [n = 25] and nothing else is printed.  In both cases the method
    returns [None] and raises nothing when the step has the length of
    [B_inv]: convergence is only visible on standard output. *)
Theorem transform_stops_at_first_small_step_and_returns_none :
  forall self w a thr, length (heap w a) = length (B_inv self) ->
  let BT := transpose (B_inv self) in
  let st0 := (geom_coords w, calc_vals self (geom_coords w), heap w a) in
  let r k := bt_rms self BT (bt_iter self BT k st0) in
  exists w' n, transform self w a thr = Ok (w', tt) /\ (1 <= n <= 25)%nat /\
    (forall k, (k + 1 < n)%nat -> ~ r k < thr) /\
    ((r (n - 1)%nat < thr /\
      stdout w' = stdout w ++ cycle_lines self BT 0 n st0 ++ [Converged_msg]) \/
     (n = 25%nat /\ ~ r (n - 1)%nat < thr /\
      stdout w' = stdout w ++ cycle_lines self BT 0 n st0)).
Proof.
  intros self w a thr Hlen.
  pose proof (transform_spec self w a thr Hlen) as T. cbv beta zeta in T |- *.
  set (BT := transpose (B_inv self)) in *.
  set (st0 := (geom_coords w, calc_vals self (geom_coords w), heap w a)) in *.
  destruct T as (w' & Ht & _ & _ & _ & Hout).
  exists w', (bt_cycles self BT thr 25 st0). split; [exact Ht|].
  split; [split; [apply bt_cycles_pos; lia | apply bt_cycles_le]|].
  split; [intros k Hk; exact (bt_cycles_before_last self BT thr 25 st0 k Hk)|].
  destruct (bt_converged self BT thr 25 st0) eqn:E.
  - left. split; [apply bt_converged_true, E | exact Hout].
  - right. destruct (bt_converged_false _ _ _ _ _ E) as [Hn Hall].
    split; [exact Hn|]. split; [rewrite Hn; apply Hall; lia|].
    rewrite Hout, app_nil_r. reflexivity.
Qed.

Lemma transform_stops_at_first_small_step_and_returns_none_witness :
  length (heap (h3_world [3; 0; 0]) 0) = length (B_inv h3_engine) /\
  exists w', transform h3_engine (h3_world [3; 0; 0]) 0 (1 / 1000000) = Ok (w', tt).
Proof.
  assert (H : length (heap (h3_world [3; 0; 0]) 0) = length (B_inv h3_engine))
    by (rewrite h3_engine_B_inv; reflexivity).
  split; [exact H|].
  destruct (transform_stops_at_first_small_step_and_returns_none
              h3_engine (h3_world [3; 0; 0]) 0 (1 / 1000000) H) as (w' & n & Ht & _).
  exists w'. exact Ht.
Defined.

(** C4 (amended): the geometry's coordinates are set to the last iterate
    of the loop, whether it converged or not; without convergence that is
    the 25th iterate. *)
Theorem transform_sets_geometry_to_last_iterate :
  forall self w a thr, length (heap w a) = length (B_inv self) ->
  let BT := transpose (B_inv self) in
  let st0 := (geom_coords w, calc_vals self (geom_coords w), heap w a) in
  exists w', transform self w a thr = Ok (w', tt) /\
    geom_coords w' = bt_x (bt_iter self BT (bt_cycles self BT thr 25 st0) st0) /\
    (bt_converged self BT thr 25 st0 = false ->
     geom_coords w' = bt_x (bt_iter self BT 25 st0)).
Proof.
  intros self w a thr Hlen.
  pose proof (transform_spec self w a thr Hlen) as T. cbv beta zeta in T |- *.
  set (BT := transpose (B_inv self)) in *.
  set (st0 := (geom_coords w, calc_vals self (geom_coords w), heap w a)) in *.
  destruct T as (w' & Ht & Hgeo & _ & _ & _).
  exists w'. split; [exact Ht|]. split; [exact Hgeo|].
  intros E. rewrite Hgeo, (proj1 (bt_converged_false _ _ _ _ _ E)). reflexivity.
Qed.

(** C10: [transform] updates the caller's step array in place: afterwards
    it holds the residual internal displacement of the last cycle, and no
    other array is changed. *)
Theorem transform_leaves_residual_in_step :
  forall self w a thr, length (heap w a) = length (B_inv self) ->
  let BT := transpose (B_inv self) in
  let st0 := (geom_coords w, calc_vals self (geom_coords w), heap w a) in
  exists w', transform self w a thr = Ok (w', tt) /\
    heap w' a = snd (bt_iter self BT (bt_cycles self BT thr 25 st0) st0) /\
    (forall b, b <> a -> heap w' b = heap w b).
Proof.
  intros self w a thr Hlen.
  pose proof (transform_spec self w a thr Hlen) as T. cbv beta zeta in T |- *.
  set (BT := transpose (B_inv self)) in *.
  set (st0 := (geom_coords w, calc_vals self (geom_coords w), heap w a)) in *.
  destruct T as (w' & Ht & _ & Hh & Ho & _).
  exists w'. split; [exact Ht|]. split; [exact Hh | exact Ho].
Qed.

Lemma h3_run_25 :
  bt_iter h3_engine (transpose (B_inv h3_engine))
    (bt_cycles h3_engine (transpose (B_inv h3_engine)) 0 25
       (h3_x0, calc_vals h3_engine h3_x0, [3; 0; 0]))
    (h3_x0, calc_vals h3_engine h3_x0, [3; 0; 0]) = (h3_x1, h3_q1, zero3).
Proof.
  rewrite (proj1 (bt_converged_false _ _ _ _ _ (bt_converged_nonpos _ _ _ 25 _ (Rle_refl 0)))).
  rewrite h3_engine_B_inv, h3_engine_vals_x0, bt_iter_S, h3_next_x0 by reflexivity.
  apply bt_iter_fixed. apply h3_next_x1; reflexivity.
Qed.

Lemma transform_sets_geometry_to_last_iterate_witness :
  length (heap (h3_world [3; 0; 0]) 0) = length (B_inv h3_engine) /\
  exists w', transform h3_engine (h3_world [3; 0; 0]) 0 0 = Ok (w', tt) /\
             geom_coords w' = h3_x1.
Proof.
  assert (H : length (heap (h3_world [3; 0; 0]) 0) = length (B_inv h3_engine))
    by (rewrite h3_engine_B_inv; reflexivity).
  split; [exact H|].
  destruct (transform_sets_geometry_to_last_iterate
              h3_engine (h3_world [3; 0; 0]) 0 0 H) as (w' & Ht & Hg & _).
  exists w'. split; [exact Ht|]. rewrite Hg. cbn [h3_world geom_coords heap].
  rewrite h3_run_25. reflexivity.
Defined.

Lemma transform_leaves_residual_in_step_witness :
  length (heap (h3_world [3; 0; 0]) 0) = length (B_inv h3_engine) /\
  exists w', transform h3_engine (h3_world [3; 0; 0]) 0 0 = Ok (w', tt) /\
             heap w' 0 = zero3.
Proof.
  assert (H : length (heap (h3_world [3; 0; 0]) 0) = length (B_inv h3_engine))
    by (rewrite h3_engine_B_inv; reflexivity).
  split; [exact H|].
  destruct (transform_leaves_residual_in_step
              h3_engine (h3_world [3; 0; 0]) 0 0 H) as (w' & Ht & Hh & _).
  exists w'. split; [exact Ht|]. rewrite Hh. cbn [h3_world geom_coords heap].
  rewrite h3_run_25. reflexivity.
Defined.

End BackTransform.

(** ** Bond detection and fragments *)

Module Bonds.
Import Samples.
Local Open Scope R_scope.

Lemma set_bond_indices_detect : forall CR g factor,
  set_bond_indices CR g factor =
  (fragments <- merge_fragments (map pset (detect_bonds CR g factor)) ;;
   if negb (length fragments =? 1)%nat then Err NameError
   else
     match detect_bonds CR g factor with
     | [] => Err TypeError
     | [_] => Err ValueError_truth
     | b :: t =>
         let bonded_set := fold_left (fun acc p => union acc (pset p)) t (pset b) in
         if set_eqb bonded_set (seq 0 (length (atoms g))) then Ok (detect_bonds CR g factor)
         else Err AssertionError
     end).
Proof. reflexivity. Qed.

Definition argmin_step {K : Type} (best y : K * R) : K * R :=
  if Rltb (snd y) (snd best) then y else best.

Lemma argmin_fold : forall {K : Type} (t : list (K * R)) acc,
  let r := fold_left argmin_step t acc in
  (r = acc \/ In r t) /\ snd r <= snd acc /\ (forall y, In y t -> snd r <= snd y).
Proof.
  intros K t. induction t as [|y t IH]; intros acc; simpl.
  - split; [left; reflexivity|]. split; [lra|]. intros _ [].
  - destruct (IH (argmin_step acc y)) as [H1 [H2 H3]].
    unfold argmin_step in *. unfold Rltb in *.
    destruct (Rlt_dec (snd y) (snd acc)) as [Hlt|Hge].
    + split; [destruct H1 as [->|H1]; [right; left; reflexivity | right; right; exact H1]|].
      split; [lra|]. intros z [<-|Hz]; [exact H2 | exact (H3 z Hz)].
    + split; [destruct H1 as [->|H1]; [left; reflexivity | right; right; exact H1]|].
      split; [exact H2|]. intros z [<-|Hz]; [lra | exact (H3 z Hz)].
Qed.

Lemma argmin_first_spec : forall (f : nat * nat -> R) l p,
  argmin_first (map (fun ij => (ij, f ij)) l) = Ok p ->
  In p l /\ forall q, In q l -> f p <= f q.
Proof.
  intros f l p H. destruct l as [|x t]; simpl in H; [discriminate|].
  injection H as <-.
  destruct (argmin_fold (map (fun ij => (ij, f ij)) t) (x, f x)) as [H1 [H2 H3]].
  fold (@argmin_step (nat * nat)) in *.
  set (r := fold_left argmin_step _ _) in *.
  assert (Hr : snd r = f (fst r)).
  { destruct H1 as [->|H1]; [reflexivity|]. apply in_map_iff in H1 as [ij [<- _]]. reflexivity. }
  split.
  - destruct H1 as [->|H1]; [left; reflexivity|]. right.
    apply in_map_iff in H1 as [ij [<- Hij]]. exact Hij.
  - intros q [<-|Hq]; rewrite <- Hr; [exact H2|].
    apply (H3 (q, f q)). apply in_map_iff. exists q; auto.
Qed.

Lemma mapM_Forall2 : forall {A B : Type} (f : A -> result B) l ys,
  mapM f l = Ok ys -> Forall2 (fun x y => f x = Ok y) l ys.
Proof.
  intros A B f l. induction l as [|x t IH]; intros ys H; simpl in H.
  - injection H as <-. constructor.
  - destruct (f x) as [y|e] eqn:Ef; simpl in H; [|discriminate].
    destruct (mapM f t) as [zs|e] eqn:Et; simpl in H; [|discriminate].
    injection H as <-. constructor; [exact Ef | apply IH; reflexivity].
Qed.

Definition closest_pair (dm : list (list R)) (fr : list nat * list nat) (b : nat * nat) : Prop :=
  In (fst b) (fst fr) /\ In (snd b) (snd fr) /\
  forall i j, In i (fst fr) -> In j (snd fr) ->
    nth (snd b) (nth (fst b) dm []) 0 <= nth j (nth i dm []) 0.

Lemma connect_fragments_closest : forall cdm dm frs bonds,
  squareform cdm = Ok dm -> connect_fragments cdm frs = Ok bonds ->
  Forall2 (closest_pair dm) (combinations2 frs) bonds.
Proof.
  intros cdm dm frs bonds Hdm H. unfold connect_fragments in H. rewrite Hdm in H. simpl in H.
  apply mapM_Forall2 in H. eapply Forall2_impl; [|exact H].
  intros [f1 f2] b Hb. cbn [fst snd] in Hb.
  apply (argmin_first_spec (fun ij => nth (snd ij) (nth (fst ij) dm []) 0)) in Hb as [Hin Hmin].
  destruct b as [b1 b2]. apply in_prod_iff in Hin as [H1 H2].
  split; [exact H1|]. split; [exact H2|].
  intros i j Hi Hj. apply (Hmin (i, j)). apply in_prod_iff. auto.
Qed.

Lemma length_combinations2 : forall {A : Type} (l : list A),
  (2 * length (combinations2 l) = length l * (length l - 1))%nat.
Proof.
  intros A l. induction l as [|x t IH]; simpl; [reflexivity|].
  rewrite length_app, length_map. destruct t; simpl in *; nia.
Qed.

Lemma mem_In : forall x s, mem x s = true <-> In x s.
Proof.
  intros x s. unfold mem. rewrite existsb_exists. split.
  - intros [y [Hy E]]. apply Nat.eqb_eq in E. subst. exact Hy.
  - intros H. exists x. split; [exact H | apply Nat.eqb_refl].
Qed.

Lemma In_union : forall x a b, In x (union a b) -> In x a \/ In x b.
Proof.
  intros x a b H. unfold union in H. apply in_app_or in H as [H|H]; [left; exact H|].
  apply filter_In in H as [H _]. right; exact H.
Qed.

Lemma In_fold_union : forall x t s,
  In x (fold_left (fun acc p => union acc (pset p)) t s) ->
  In x s \/ exists p, In p t /\ In x (pset p).
Proof.
  intros x t. induction t as [|p t IH]; intros s H; simpl in H; [left; exact H|].
  apply IH in H as [H|[q [Hq Hx]]].
  - apply In_union in H as [H|H]; [left; exact H|]. right. exists p. split; [left|]; auto.
  - right. exists q. split; [right|]; auto.
Qed.

Lemma set_eqb_seq : forall s n i, set_eqb s (seq 0 n) = true -> (i < n)%nat -> In i s.
Proof.
  intros s n i H Hi. unfold set_eqb in H. apply andb_prop in H as [_ H].
  rewrite forallb_forall in H. apply mem_In, H, in_seq. lia.
Qed.

Lemma set_bond_indices_success : forall CR g factor b,
  set_bond_indices CR g factor = Ok b ->
  b = detect_bonds CR g factor /\
  (exists f, merge_fragments (map pset b) = Ok [f]) /\
  forall i, (i < length (atoms g))%nat -> exists p, In p b /\ (fst p = i \/ snd p = i).
Proof.
  intros CR g factor b H. rewrite set_bond_indices_detect in H.
  destruct (merge_fragments (map pset (detect_bonds CR g factor))) as [fs|e] eqn:Em;
    simpl in H; [|discriminate].
  destruct (length fs =? 1)%nat eqn:El; simpl in H; [|discriminate].
  apply Nat.eqb_eq in El. destruct fs as [|f [|]]; simpl in El; try discriminate.
  destruct (detect_bonds CR g factor) as [|b0 [|b1 t]] eqn:Ed; try discriminate.
  destruct (set_eqb _ _) eqn:Es; [|discriminate]. injection H as <-.
  split; [reflexivity|]. split; [exists f; exact Em|].
  intros i Hi. pose proof (set_eqb_seq _ _ i Es Hi) as Hin.
  apply In_fold_union in Hin as [Hin|[p [Hp Hx]]].
  - exists b0. split; [left; reflexivity|]. destruct Hin as [<-|[<-|[]]]; auto.
  - exists p. split; [right; exact Hp|]. destruct Hx as [<-|[<-|[]]]; auto.
Qed.

Lemma set_bond_indices_fragments : forall CR g factor fs,
  merge_fragments (map pset (detect_bonds CR g factor)) = Ok fs -> length fs <> 1%nat ->
  set_bond_indices CR g factor = Err NameError.
Proof.
  intros CR g factor fs Hm Hl. rewrite set_bond_indices_detect, Hm. simpl.
  apply Nat.eqb_neq in Hl. rewrite Hl. reflexivity.
Qed.

(** two H2 molecules 8.6 bohr apart *)
Definition h2_pair_geom : Geometry :=
  {| atoms := ["H"; "H"; "H"; "H"]%string;
     coords := [0; 0; 0; 7 / 5; 0; 0; 10; 0; 0; 57 / 5; 0; 0] |}.

Lemma h2_pair_pdist : pdist (reshape3 (coords h2_pair_geom)) = [7 / 5; 10; 57 / 5; 43 / 5; 10; 7 / 5].
Proof.
  unfold pdist. simpl.
  repeat (refine (f_equal2 cons _ _)); try reflexivity;
    apply sqrt_sq_eq; unfold vdot, vsub; simpl; lra.
Qed.

Lemma h2_pair_bonds : detect_bonds sample_radii h2_pair_geom (13 / 10) = [(0, 1)%nat; (2, 3)%nat].
Proof.
  unfold detect_bonds. rewrite h2_pair_pdist. simpl.
  assert (Hr : sample_radii (String (lower_ascii "H") "") = 59 / 100) by reflexivity.
  rewrite Hr.
  rewrite (Rleb_true (7 / 5)) by lra. rewrite (Rleb_false 10) by lra.
  rewrite (Rleb_false (57 / 5)) by lra. rewrite (Rleb_false (43 / 5)) by lra.
  reflexivity.
Qed.

End Bonds.

(** ** Construction of the engine *)

Module Construction.
Import Samples Enumeration Bonds.
Local Open Scope nat_scope.

Lemma sort_by_central_ok : forall a b x y, a < b -> x < y ->
  card (union (pset (a, b)) (pset (x, y))) = 3 -> exists r, sort_by_central (a, b) (x, y) = Ok r.
Proof.
  intros a b x y H1 H2 H.
  unfold sort_by_central, card, pset, inter, union, diff in *; simpl in *.
  nat_split; eexists; reflexivity.
Qed.

Lemma in_combinations2_seq : forall n s p q, In (p, q) (combinations2 (seq s n)) -> p < q.
Proof.
  induction n; intros s p q H; simpl in H; [contradiction|].
  apply in_app_or in H as [H|H].
  - apply in_map_iff in H as [y [E Hy]]. injection E as <- <-.
    apply in_seq in Hy. lia.
  - apply (IHn (S s)), H.
Qed.

Lemma norm_pair_lt : forall p, fst p < snd p -> norm_pair p = p.
Proof. intros [a b] H; simpl in *. destruct (Nat.leb_spec a b); [reflexivity | lia]. Qed.

Lemma bends_of_ok : forall ps,
  (forall s1 s2, In (s1, s2) ps -> fst s1 < snd s1 /\ fst s2 < snd s2) ->
  exists bs, bends_of ps = Ok bs.
Proof.
  induction ps as [|[[a b] [x y]] t IH]; intros H; simpl; [eexists; reflexivity|].
  destruct IH as [bs Hbs]; [intros; apply H; right; assumption|].
  destruct (card _ =? 3) eqn:E.
  - apply Nat.eqb_eq in E. destruct (H (a, b) (x, y)) as [H1 H2]; [left; reflexivity|].
    destruct (sort_by_central_ok a b x y H1 H2 E) as [r Hr]. rewrite Hr, Hbs.
    eexists; reflexivity.
  - exists bs; exact Hbs.
Qed.

Lemma set_bending_ok : forall bonds, (forall p, In p bonds -> fst p < snd p) ->
  exists bs, set_bending_indices bonds = Ok bs.
Proof.
  intros bonds H. unfold set_bending_indices. apply bends_of_ok.
  intros s1 s2 Hin. apply in_combinations2 in Hin as [Hs1 Hs2].
  apply nodup_In in Hs1, Hs2. apply in_map_iff in Hs1 as [p1 [<- Hp1]].
  apply in_map_iff in Hs2 as [p2 [<- Hp2]].
  rewrite !norm_pair_lt by auto. auto.
Qed.

Lemma in_filter_combine_fst : forall {A B : Type} (l : list A) (fl : list B) f p,
  In p (map fst (filter f (combine l fl))) -> In p l.
Proof.
  intros A B l fl f p H. apply in_map_iff in H as [[x y] [<- Hin]].
  apply filter_In in Hin as [Hin _]. apply in_combine_l in Hin. exact Hin.
Qed.

Lemma set_bond_indices_ok_lt : forall CR g factor b,
  set_bond_indices CR g factor = Ok b -> forall p, In p b -> fst p < snd p.
Proof.
  intros CR g factor b H p Hp. unfold set_bond_indices in H.
  destruct (merge_fragments _) as [frs|e]; simpl in H; [|discriminate].
  destruct (negb _); [discriminate|].
  match type of H with
  | context [match ?l with [] => _ | _ => _ end] => destruct l as [|b0 [|b1 t]] eqn:E
  end; try discriminate.
  destruct (set_eqb _ _); [|discriminate]. injection H as <-.
  rewrite <- E in Hp. apply in_filter_combine_fst in Hp. destruct p.
  eapply in_combinations2_seq; exact Hp.
Qed.

Lemma length_reshape3 : forall n l, length l = 3 * n -> length (reshape3 l) = n.
Proof.
  induction n; intros l H.
  - destruct l; [reflexivity | simpl in H; lia].
  - destruct l as [|x [|y [|z t]]]; simpl in H; try lia. simpl. f_equal. apply IHn. lia.
Qed.

Lemma length_pdist : forall c, length (pdist c) = length (combinations2 (seq 0 (length c))).
Proof. intros c. unfold pdist. apply length_map. Qed.


Definition h2_geom : Geometry :=
  {| atoms := ["H"; "H"]%string; coords := [0; 0; 0; 7 / 5; 0; 0]%R |}.



End Construction.

(** ** The water molecule and the weights [rho] *)

Module Water.
Import Samples.
Local Open Scope R_scope.

Lemma vnorm_le : forall v y, 0 <= y -> vdot v v <= y * y -> vnorm v <= y.
Proof.
  intros v y Hy H. unfold vnorm. rewrite <- (sqrt_square y Hy).
  apply sqrt_le_1; [unfold vdot; nra | nra | exact H].
Qed.

Lemma vnorm_gt : forall v y, 0 <= y -> y * y < vdot v v -> y < vnorm v.
Proof.
  intros v y Hy H. unfold vnorm. rewrite <- (sqrt_square y Hy).
  apply sqrt_lt_1; [nra | unfold vdot; nra | exact H].
Qed.

Definition water_geom : Geometry :=
  {| atoms := ["O"; "H"; "H"]%string;
     coords := [0; 0; 0; 18141 / 10000; 0; 0; -4542 / 10000; 17563 / 10000; 0] |}.

Lemma length_flatten : forall l, length (flatten l) = (3 * length l)%nat.
Proof. induction l; simpl; [reflexivity|]. rewrite IHl. lia. Qed.

Lemma length_set_nth' {A : Type} : forall i (x : A) l, length (set_nth i x l) = length l.
Proof. induction i; destruct l; simpl; auto. Qed.

Lemma calculate_rows_length : forall bonds bends x,
  Forall (fun r => length r = (3 * length (reshape3 x))%nat)
         (map grad (calculate bonds bends [] x)).
Proof.
  intros bonds bends x. unfold calculate. rewrite app_nil_r, map_app.
  apply Forall_app. split; apply Forall_forall; intros r Hr; apply in_map_iff in Hr as [p [<- Hp]];
  apply in_map_iff in Hp as [ind [<- _]].
  - destruct ind as [n m]. unfold calc_stretch. simpl.
    rewrite length_flatten, !length_set_nth'. unfold zeros_like. rewrite repeat_length. reflexivity.
  - destruct ind as [[m o] n]. unfold calc_bend. simpl.
    rewrite length_flatten, !length_set_nth'. unfold zeros_like. rewrite repeat_length. reflexivity.
Qed.

(** C8: for water (O at the origin, O-H 1.8141 bohr, H-O-H about 104.5
    degrees) and covalent radii under which both O-H pairs are bonded and the
    H-H pair is not, construction gives the stretches (O,H1), (O,H2), the
    bend (H1,O,H2), no dihedral, and a 3 x 9 B matrix. *)
Theorem water_primitives : forall CR : string -> R,
  18141 / 10000 <= 13 / 10 * (CR "o"%string + CR "h"%string) ->
  13 / 10 * (CR "h"%string + CR "h"%string) < 286 / 100 ->
  exists e, RedundantCoords_init CR water_geom = Ok e /\
    bond_indices e = [(0, 1); (0, 2)]%nat /\
    bending_indices e = [(1, 0, 2)]%nat /\
    dihedral_indices e = [] /\
    length (B e) = 3%nat /\ Forall (fun row => length row = 9%nat) (B e).
Proof.
  intros CR Hoh Hhh.
  assert (D01 : vnorm (vsub (V3 0 0 0) (V3 (18141 / 10000) 0 0)) = 18141 / 10000)
    by (apply vnorm_sq; [lra | unfold vdot, vsub; simpl; ring]).
  assert (D02 : vnorm (vsub (V3 0 0 0) (V3 (-4542 / 10000) (17563 / 10000) 0)) <= 18141 / 10000)
    by (apply vnorm_le; [lra | unfold vdot, vsub; simpl; lra]).
  assert (D12 : 286 / 100 < vnorm (vsub (V3 (18141 / 10000) 0 0) (V3 (-4542 / 10000) (17563 / 10000) 0)))
    by (apply vnorm_gt; [lra | unfold vdot, vsub; simpl; lra]).
  assert (Hb : set_bond_indices CR water_geom (13 / 10) = Ok [(0, 1); (0, 2)]%nat).
  { unfold set_bond_indices, pdist. simpl.
    change (String (lower_ascii "O") "") with "o"%string.
    change (String (lower_ascii "H") "") with "h"%string.
    rewrite (Rleb_true (vnorm (vsub (V3 0 0 0) (V3 (18141 / 10000) 0 0)))) by lra.
    rewrite (Rleb_true (vnorm (vsub (V3 0 0 0) (V3 (-4542 / 10000) (17563 / 10000) 0)))) by lra.
    rewrite (Rleb_false (vnorm (vsub (V3 (18141 / 10000) 0 0) (V3 (-4542 / 10000) (17563 / 10000) 0)))) by lra.
    reflexivity. }
  assert (Hr : exists r, set_rho CR water_geom = Ok r)
    by (unfold set_rho, broadcast; simpl; eexists; reflexivity).
  destruct Hr as [r Hr].
  unfold RedundantCoords_init. rewrite Hb. cbn [bind].
  change (set_bending_indices [(0, 1); (0, 2)]%nat) with (Ok [(1, 0, 2)]%nat : result _).
  cbn [bind]. rewrite Hr. cbn [bind].
  eexists; split; [reflexivity|]. cbn [bond_indices bending_indices dihedral_indices].
  split; [reflexivity|]. split; [reflexivity|]. split; [reflexivity|].
  unfold B. cbn [_coords]. split.
  - rewrite length_map. reflexivity.
  - apply (calculate_rows_length [(0, 1); (0, 2)]%nat [(1, 0, 2)]%nat (coords water_geom)).
Qed.

Lemma water_primitives_witness :
  18141 / 10000 <= 13 / 10 * (sample_radii "o"%string + sample_radii "h"%string) /\
  13 / 10 * (sample_radii "h"%string + sample_radii "h"%string) < 286 / 100 /\
  exists e, RedundantCoords_init sample_radii water_geom = Ok e /\
            bond_indices e = [(0, 1); (0, 2)]%nat.
Proof.
  assert (H1 : 18141 / 10000 <= 13 / 10 * (sample_radii "o"%string + sample_radii "h"%string))
    by (unfold sample_radii; simpl; lra).
  assert (H2 : 13 / 10 * (sample_radii "h"%string + sample_radii "h"%string) < 286 / 100)
    by (unfold sample_radii; simpl; lra).
  split; [exact H1|]. split; [exact H2|].
  destruct (water_primitives sample_radii H1 H2) as (e & He & Hb & _).
  exists e. split; assumption.
Defined.

Lemma get_alpha_pos : forall a1 a2, 0 < get_alpha a1 a2.
Proof.
  intros a1 a2. unfold get_alpha.
  destruct (in_first_period a1 && in_first_period a2); [lra|].
  destruct (in_first_period a1 || in_first_period a2); lra.
Qed.

(** C9: for three atoms, [rho] is the symmetric 3 x 3 matrix with zero
    diagonal whose entry for the [k]-th atom pair is
    [exp (alpha * (r_k^2 - d_k^2))] with [r_k] the covalent radius of atom
    [k], not [exp (alpha * (r_i^2 + r_j^2 - d_ij^2))]: the two differ as soon
    as the radius of the second atom is non-zero. *)
Theorem set_rho_three_atoms : forall CR g,
  length (atoms g) = 3%nat -> length (coords g) = 9%nat ->
  let a := map lower (atoms g) in
  let r k := CR (lower (nth k a ""%string)) in
  let d k := nth k (pdist (reshape3 (coords g))) 0 in
  let al i j := get_alpha (nth i a ""%string) (nth j a ""%string) in
  exists rho, set_rho CR g = Ok rho /\
    rho = [[0; exp (al 0%nat 1%nat * (r 0%nat ^ 2 - d 0%nat ^ 2)); exp (al 0%nat 2%nat * (r 1%nat ^ 2 - d 1%nat ^ 2))];
           [exp (al 0%nat 1%nat * (r 0%nat ^ 2 - d 0%nat ^ 2)); 0; exp (al 1%nat 2%nat * (r 2%nat ^ 2 - d 2%nat ^ 2))];
           [exp (al 0%nat 2%nat * (r 1%nat ^ 2 - d 1%nat ^ 2)); exp (al 1%nat 2%nat * (r 2%nat ^ 2 - d 2%nat ^ 2)); 0]] /\
    (r 1%nat <> 0 ->
     nth 1 (nth 0 rho []) 0 <> exp (al 0%nat 1%nat * (r 0%nat ^ 2 + r 1%nat ^ 2 - d 0%nat ^ 2))).
Proof.
  intros CR g Ha Hc a r d al.
  destruct g as [atoms_ coords_]; simpl in Ha, Hc |- *.
  destruct atoms_ as [|a0 [|a1 [|a2 [|]]]]; simpl in Ha; try discriminate.
  destruct coords_ as [|x0 [|x1 [|x2 [|x3 [|x4 [|x5 [|x6 [|x7 [|x8 [|]]]]]]]]]]; simpl in Hc; try discriminate.
  eexists. split; [reflexivity|]. split; [reflexivity|].
  intros Hr1 E. simpl in E. apply (f_equal ln) in E. rewrite !ln_exp in E.
  pose proof (get_alpha_pos (nth 0 a ""%string) (nth 1 a ""%string)) as Hal.
  fold (al 0%nat 1%nat) in Hal.
  assert (H0 : al 0%nat 1%nat * r 1%nat ^ 2 = 0).
  { subst a r d al. simpl in *. lra. }
  apply Rmult_integral in H0 as [H0|H0]; [lra|]. exact (pow_nonzero _ 2 Hr1 H0).
Qed.

Lemma water_d01 : nth 0 (pdist (reshape3 (coords water_geom))) 0 = 18141 / 10000.
Proof.
  unfold pdist. simpl. apply vnorm_sq; [lra | unfold vdot, vsub; simpl; ring].
Qed.

Lemma set_rho_three_atoms_witness :
  exists rho, set_rho sample_radii water_geom = Ok rho /\
    nth 1 (nth 0 rho []) 0 <>
    exp (3949 / 10000 * (sample_radii "o"%string ^ 2 + sample_radii "h"%string ^ 2 - (18141 / 10000) ^ 2)).
Proof.
  pose proof (set_rho_three_atoms sample_radii water_geom eq_refl eq_refl) as T.
  cbv zeta in T. destruct T as (rho & E & _ & N).
  exists rho. split; [exact E|]. intro E2. apply N.
  - change (lower (nth 1 (map lower (atoms water_geom)) ""%string)) with "h"%string.
    unfold sample_radii. simpl. lra.
  - rewrite E2. rewrite water_d01.
    change (lower (nth 0 (map lower (atoms water_geom)) ""%string)) with "o"%string.
    change (lower (nth 1 (map lower (atoms water_geom)) ""%string)) with "h"%string.
    change (get_alpha (nth 0 (map lower (atoms water_geom)) ""%string)
                      (nth 1 (map lower (atoms water_geom)) ""%string)) with (get_alpha "o" "h").
    unfold get_alpha. simpl. reflexivity.
Defined.

End Water.

Module Fragments.
Import IdxSet Enumeration.
Local Open Scope nat_scope.

Lemma nth_error_lt : forall {A : Type} (l : list A) j f, nth_error l j = Some f -> j < length l.
Proof. intros A l j f H. apply nth_error_Some. congruence. Qed.

Lemma mem_In' : forall x s, mem x s = true <-> In x s.
Proof.
  intros x s. unfold mem. rewrite existsb_exists. split.
  - intros [y [Hy E]]. apply Nat.eqb_eq in E. subst. exact Hy.
  - intros H. exists x. split; [exact H | apply Nat.eqb_refl].
Qed.

Lemma intersects_false : forall a b, intersects a b = false -> forall x, In x a -> ~ In x b.
Proof.
  intros a b H x Ha Hb. unfold intersects in H.
  assert (E : existsb (fun x => mem x b) a = true)
    by (apply existsb_exists; exists x; split; [exact Ha | apply mem_In'; exact Hb]).
  congruence.
Qed.

Lemma In_union_l : forall x a b, In x a -> In x (union a b).
Proof. intros x a b H. unfold union. apply in_or_app. left. exact H. Qed.

Lemma In_union_r : forall x a b, In x b -> In x (union a b).
Proof.
  intros x a b H. unfold union. apply in_or_app.
  destruct (mem x a) eqn:E; [left; apply mem_In'; exact E|].
  right. apply filter_In. rewrite E. auto.
Qed.

Lemma In_union_inv : forall x a b, In x (union a b) -> In x a \/ In x b.
Proof.
  intros x a b H. unfold union in H. apply in_app_or in H as [H|H]; [left; exact H|].
  apply filter_In in H as [H _]. right; exact H.
Qed.

Lemma find_intersecting_some : forall p fs k i f,
  find_intersecting p fs k = Some (i, f) ->
  exists j, i = k + j /\ nth_error fs j = Some f /\ intersects p f = true.
Proof.
  intros p fs. induction fs as [|g t IH]; intros k i f H; simpl in H; [discriminate|].
  destruct (intersects p g) eqn:E.
  - injection H as <- <-. exists 0. rewrite Nat.add_0_r. auto.
  - apply IH in H as [j [-> [Hj Hi]]]. exists (S j). split; [lia|]. auto.
Qed.

Lemma find_intersecting_none : forall p fs k,
  find_intersecting p fs k = None -> forall f, In f fs -> intersects p f = false.
Proof.
  intros p fs. induction fs as [|g t IH]; intros k H f Hf; simpl in H; [destruct Hf|].
  destruct (intersects p g) eqn:E; [discriminate|].
  destruct Hf as [<-|Hf]; [exact E | exact (IH _ H f Hf)].
Qed.

Lemma remove_nth_In : forall {A : Type} j (l : list A) y, In y (remove_nth j l) -> In y l.
Proof.
  intros A j. induction j as [|j IH]; intros l y H; destruct l as [|x t]; simpl in *; auto.
  destruct H as [<-|H]; [left; reflexivity | right; exact (IH _ _ H)].
Qed.

Lemma remove_nth_cover : forall {A : Type} j (l : list A) f y,
  nth_error l j = Some f -> In y l -> y = f \/ In y (remove_nth j l).
Proof.
  intros A j. induction j as [|j IH]; intros l f y Hj Hy; destruct l as [|x t]; simpl in *;
    try discriminate.
  - injection Hj as ->. destruct Hy as [<-|Hy]; auto.
  - destruct Hy as [<-|Hy]; [right; left; reflexivity|].
    destruct (IH t f y Hj Hy) as [E|E]; auto.
Qed.

Lemma length_remove_nth : forall {A : Type} j (l : list A) f,
  nth_error l j = Some f -> length (remove_nth j l) = length l - 1.
Proof.
  intros A j. induction j as [|j IH]; intros l f Hj; destruct l as [|x t]; simpl in *;
    try discriminate.
  - lia.
  - rewrite (IH t f Hj). apply nth_error_lt in Hj. lia.
Qed.

Section Invariant.
Variable fs0 : list (list nat).

(** every input fragment lies inside some current fragment *)
Definition covers (cur : list (list nat)) : Prop :=
  forall f, In f fs0 -> exists c, In c cur /\ incl f c.

(** every current fragment is a union of input fragments *)
Definition built_from (cur : list (list nat)) : Prop :=
  forall c, In c cur -> forall x, In x c -> exists f, In f fs0 /\ In x f /\ incl f c.

Lemma merge_fragments_fuel_inv : forall fuel cur,
  cur <> [] -> length cur < fuel -> covers cur -> built_from cur ->
  Forall (fun c => c <> []) cur ->
  exists rest L, merge_fragments_fuel fuel cur = Ok (rest ++ [L]) /\
    length (rest ++ [L]) <= length cur /\ Forall (fun c => c <> []) (rest ++ [L]) /\
    covers (rest ++ [L]) /\ built_from (rest ++ [L]) /\
    (forall c, In c rest -> forall x, In x L -> ~ In x c).
Proof.
  induction fuel as [|fuel IH]; intros cur Hne Hlt Hcov Hbf Hnn; [lia|].
  simpl. destruct (length cur =? 1) eqn:E1.
  - apply Nat.eqb_eq in E1. destruct cur as [|L [|]]; simpl in E1; try discriminate.
    exists [], L. simpl. split; [reflexivity|]. split; [lia|]. split; [exact Hnn|].
    split; [exact Hcov|]. split; [exact Hbf|]. intros _ [].
  - destruct cur as [|popped rest]; [congruence|].
    destruct (find_intersecting popped rest 0) as [[i frag]|] eqn:Ef.
    + apply find_intersecting_some in Ef as [j [-> [Hj _]]]. simpl.
      set (cur' := remove_nth j rest ++ [union popped frag]).
      assert (Hlen : length cur' = length rest).
      { unfold cur'. rewrite length_app, (length_remove_nth j rest frag Hj). simpl.
        apply nth_error_lt in Hj. lia. }
      destruct (IH cur') as (rest' & L & Hm & Hl & Hn & Hc & Hb & Hd).
      * unfold cur'. destruct (remove_nth j rest); discriminate.
      * simpl in Hlt. lia.
      * intros f Hf. destruct (Hcov f Hf) as [c [Hc Hfc]].
        destruct Hc as [<-|Hc].
        -- exists (union popped frag). split; [apply in_or_app; right; left; reflexivity|].
           intros x Hx. apply In_union_l, Hfc, Hx.
        -- destruct (remove_nth_cover j rest frag c Hj Hc) as [->|Hr].
           ++ exists (union popped frag). split; [apply in_or_app; right; left; reflexivity|].
              intros x Hx. apply In_union_r, Hfc, Hx.
           ++ exists c. split; [apply in_or_app; left; exact Hr | exact Hfc].
      * intros c Hc x Hx. apply in_app_or in Hc as [Hc|[<-|[]]].
        -- apply (Hbf c); [right; apply (remove_nth_In j rest c Hc) | exact Hx].
        -- apply In_union_inv in Hx as [Hx|Hx].
           ++ destruct (Hbf popped (or_introl eq_refl) x Hx) as [f [Hf [Hxf Hfi]]].
              exists f. split; [exact Hf|]. split; [exact Hxf|].
              intros y Hy. apply In_union_l, Hfi, Hy.
           ++ assert (Hfr : In frag (popped :: rest)) by (right; eapply nth_error_In; exact Hj).
              destruct (Hbf frag Hfr x Hx) as [f [Hf [Hxf Hfi]]].
              exists f. split; [exact Hf|]. split; [exact Hxf|].
              intros y Hy. apply In_union_r, Hfi, Hy.
      * unfold cur'. apply Forall_app. inversion Hnn as [|? ? Hp Hr]; subst. split.
        -- apply Forall_forall. intros c Hc. rewrite Forall_forall in Hr.
           apply Hr, (remove_nth_In j rest c Hc).
        -- constructor; [|constructor]. destruct popped as [|y t]; [congruence|].
           intros E. assert (Hy : In y (union (y :: t) frag)) by (apply In_union_l; left; reflexivity).
           rewrite E in Hy. destruct Hy.
      * exists rest', L. split; [exact Hm|]. split; [simpl; lia|]. auto.
    + exists rest, popped. split; [reflexivity|].
      split; [rewrite length_app; simpl; lia|].
      split; [inversion Hnn; subst; apply Forall_app; split; [assumption | constructor; auto]|].
      split.
      { intros f Hf. destruct (Hcov f Hf) as [c [Hc Hfc]]. exists c. split; [|exact Hfc].
        destruct Hc as [<-|Hc]; apply in_or_app; [right; left; reflexivity | left; exact Hc]. }
      split.
      { intros c Hc. apply (Hbf c). apply in_app_or in Hc as [Hc|[<-|[]]]; [right; exact Hc | left; reflexivity]. }
      intros c Hc x Hx. exact (intersects_false _ _ (find_intersecting_none _ _ _ Ef c Hc) x Hx).
Qed.

End Invariant.

Lemma merge_fragments_spec : forall fs, fs <> [] -> Forall (fun c => c <> []) fs ->
  exists rest L, merge_fragments fs = Ok (rest ++ [L]) /\
    length (rest ++ [L]) <= length fs /\ Forall (fun c => c <> []) (rest ++ [L]) /\
    covers fs (rest ++ [L]) /\ built_from fs (rest ++ [L]) /\
    (forall c, In c rest -> forall x, In x L -> ~ In x c).
Proof.
  intros fs Hne Hnn. apply merge_fragments_fuel_inv; [exact Hne | lia | | | exact Hnn].
  - intros f Hf. exists f. split; [exact Hf | intros x Hx; exact Hx].
  - intros c Hc x Hx. exists c. split; [exact Hc|]. split; [exact Hx | intros y Hy; exact Hy].
Qed.


Lemma concat_cover : forall fs out, covers fs out -> built_from fs out ->
  forall x, In x (concat out) <-> In x (concat fs).
Proof.
  intros fs out Hc Hb x. rewrite !in_concat. split.
  - intros [c [Hc' Hx]]. destruct (Hb c Hc' x Hx) as [f [Hf [Hxf _]]]. exists f; auto.
  - intros [f [Hf Hx]]. destruct (Hc f Hf) as [c [Hc' Hfc]]. exists c; auto.
Qed.

Lemma merge_fragments_cut : forall fs out,
  merge_fragments fs = Ok out -> Forall (fun c => c <> []) fs -> 2 <= length out ->
  (forall f, In f fs -> incl f (last out []) \/ forall x, In x f -> ~ In x (last out [])) /\
  (exists f, In f fs /\ incl f (last out [])) /\
  (exists f, In f fs /\ forall x, In x f -> ~ In x (last out [])).
Proof.
  intros fs out Hm Hnn H2.
  destruct fs as [|f0 fs']; [discriminate|].
  destruct (merge_fragments_spec (f0 :: fs') ltac:(discriminate) Hnn)
    as (rest & L & Hm' & _ & Hn & Hc & Hb & Hd).
  rewrite Hm' in Hm. injection Hm as <-. rewrite last_last.
  split; [|split].
  - intros f Hf. destruct (Hc f Hf) as [c [Hc' Hfc]].
    apply in_app_or in Hc' as [Hc'|[<-|[]]]; [|left; exact Hfc].
    right. intros x Hx HxL. exact (Hd c Hc' x HxL (Hfc x Hx)).
  - rewrite Forall_forall in Hn.
    destruct L as [|y t] eqn:EL; [exfalso; apply (Hn []); [apply in_or_app; right; left; reflexivity | reflexivity]|].
    rewrite <- EL in *.
    assert (Hy : In y L) by (rewrite EL; left; reflexivity).
    assert (HL : In L (rest ++ [L])) by (apply in_or_app; right; left; reflexivity).
    destruct (Hb L HL y Hy) as [f [Hf [_ Hfi]]].
    exists f. auto.
  - rewrite length_app in H2. simpl in H2.
    destruct rest as [|c rest']; simpl in H2; [lia|].
    rewrite Forall_forall in Hn.
    destruct c as [|y t] eqn:Ec; [exfalso; apply (Hn []); [left; reflexivity | reflexivity]|].
    rewrite <- Ec in *.
    assert (Hy : In y c) by (rewrite Ec; left; reflexivity).
    destruct (Hb c (or_introl eq_refl) y Hy) as [f [Hf [_ Hfi]]].
    exists f. split; [exact Hf|]. intros x Hx HxL. exact (Hd c (or_introl eq_refl) x HxL (Hfi x Hx)).
Qed.

(** [merge_fragments] raises [IndexError] on an empty list; when it returns
    on a list of non-empty fragments, it returns at least one and at most as
    many fragments as it was given, covering exactly the atoms of the input
    fragments. *)
Theorem merge_fragments_keeps_atoms :
  merge_fragments [] = Err IndexError /\
  forall fs out, Forall (fun c => c <> []) fs -> merge_fragments fs = Ok out ->
  1 <= length out <= length fs /\
  forall x, In x (concat out) <-> In x (concat fs).
Proof.
  split; [reflexivity|]. intros fs out Hnn Hout.
  destruct fs as [|f0 fs0]; [discriminate|].
  destruct (merge_fragments_spec (f0 :: fs0) ltac:(discriminate) Hnn)
    as (rest & L & Hm & Hl & _ & Hc & Hb & _).
  rewrite Hout in Hm. injection Hm as ->. split.
  - rewrite length_app in *. simpl in *. lia.
  - apply concat_cover; assumption.
Qed.

Lemma merge_fragments_keeps_atoms_witness :
  exists out, merge_fragments [[0; 1]; [2; 3]; [1; 2]] = Ok out /\ 1 <= length out <= 3.
Proof.
  destruct merge_fragments_keeps_atoms as [_ H].
  assert (Hnn : Forall (fun c : list nat => c <> []) [[0; 1]; [2; 3]; [1; 2]])
    by (repeat constructor; discriminate).
  eexists. split; [exact merge_chain|].
  exact (proj1 (H _ _ Hnn merge_chain)).
Defined.

(** When [merge_fragments] returns two or more fragments, the last one is a
    genuine separate part: every input fragment lies either inside it or
    shares no atom with it, and there are input fragments of both kinds. *)
Theorem merge_fragments_last_is_separate : forall fs out,
  merge_fragments fs = Ok out -> Forall (fun c => c <> []) fs -> 2 <= length out ->
  (forall f, In f fs -> incl f (last out []) \/ forall x, In x f -> ~ In x (last out [])) /\
  (exists f, In f fs /\ incl f (last out [])) /\
  (exists f, In f fs /\ forall x, In x f -> ~ In x (last out [])).
Proof. exact merge_fragments_cut. Qed.

Lemma merge_fragments_last_is_separate_witness :
  merge_fragments [[0; 1]; [2; 3]] = Ok [[2; 3]; [0; 1]] /\
  exists f, In f [[0; 1]; [2; 3]] /\ forall x, In x f -> ~ In x [0; 1].
Proof.
  assert (Hm : merge_fragments [[0; 1]; [2; 3]] = Ok [[2; 3]; [0; 1]]) by reflexivity.
  split; [exact Hm|].
  destruct (merge_fragments_last_is_separate _ _ Hm ltac:(repeat constructor; discriminate)
              ltac:(simpl; lia)) as (_ & _ & H). exact H.
Defined.

End Fragments.

Module BondTest.
Import IdxSet Enumeration Bonds Fragments.
Local Open Scope R_scope.

Lemma combine_map_same : forall {A B C : Type} (f : A -> B) (g : A -> C) l,
  combine (map f l) (map g l) = map (fun x => (f x, g x)) l.
Proof. intros A B C f g l. induction l; simpl; [reflexivity | rewrite IHl; reflexivity]. Qed.

Lemma combine_self_map : forall {A B : Type} (h : A -> B) l,
  combine l (map h l) = map (fun x => (x, h x)) l.
Proof. intros A B h l. induction l; simpl; [reflexivity | rewrite IHl; reflexivity]. Qed.

Lemma filter_flags : forall {A : Type} (P : A -> bool) l,
  map fst (filter snd (map (fun x => (x, P x)) l)) = filter P l.
Proof.
  intros A P l. induction l as [|x t IH]; simpl; [reflexivity|].
  destruct (P x); simpl; rewrite IH; reflexivity.
Qed.

Lemma in_combinations2_seq_iff : forall n s i j,
  In (i, j) (combinations2 (seq s n)) <-> (s <= i < j /\ j < s + n)%nat.
Proof.
  induction n; intros s i j; simpl; [split; [intros []| lia]|].
  rewrite in_app_iff, in_map_iff, IHn. split.
  - intros [[y [E Hy]]|H]; [injection E as <- <-; apply in_seq in Hy|]; lia.
  - intros H. destruct (Nat.eq_dec i s) as [->|Hne].
    + left. exists j. split; [reflexivity|]. apply in_seq. lia.
    + right. lia.
Qed.

Lemma detect_bonds_iff : forall CR g factor i j,
  let c := reshape3 (coords g) in
  In (i, j) (detect_bonds CR g factor) <->
  (i < j < length c)%nat /\
  vnorm (vsub (nth i c v0) (nth j c v0)) <=
    factor * (CR (lower (nth i (atoms g) ""%string)) + CR (lower (nth j (atoms g) ""%string))).
Proof.
  intros CR g factor i j c. unfold detect_bonds, pdist. fold c.
  rewrite combine_map_same, map_map, combine_self_map, filter_flags, filter_In.
  rewrite in_combinations2_seq_iff. cbn [fst snd].
  unfold Rleb. destruct (Rle_dec _ _) as [H|H]; split; intros [H1 H2]; try split; try lia; auto;
    try discriminate; contradiction.
Qed.

(** [set_bond_indices], when it returns, returns exactly the pairs [i < j]
    of atoms whose distance is at most [factor] times the sum of their
    covalent radii. *)
Theorem set_bond_indices_distance_test : forall CR g factor b,
  set_bond_indices CR g factor = Ok b ->
  let c := reshape3 (coords g) in
  forall i j, In (i, j) b <->
  (i < j < length c)%nat /\
  vnorm (vsub (nth i c v0) (nth j c v0)) <=
    factor * (CR (lower (nth i (atoms g) ""%string)) + CR (lower (nth j (atoms g) ""%string))).
Proof.
  intros CR g factor b H c i j.
  destruct (set_bond_indices_success CR g factor b H) as [-> _].
  apply detect_bonds_iff.
Qed.

Lemma set_bond_indices_distance_test_witness :
  (0 < 2 < length (reshape3 (coords Samples.h3_geom)))%nat /\
  ~ In (0, 2)%nat [(0, 1); (1, 2)]%nat /\
  ~ vnorm (vsub (nth 0 (reshape3 (coords Samples.h3_geom)) v0) (nth 2 (reshape3 (coords Samples.h3_geom)) v0))
    <= 13 / 10 * (Samples.sample_radii (lower "H") + Samples.sample_radii (lower "H")).
Proof.
  assert (Hlt : (0 < 2 < length (reshape3 (coords Samples.h3_geom)))%nat)
    by (unfold Samples.h3_geom; simpl; lia).
  split; [exact Hlt|]. split; [simpl; intuition discriminate|].
  intros Hd.
  pose proof (proj2 (set_bond_indices_distance_test Samples.sample_radii Samples.h3_geom (13 / 10)
                 [(0, 1); (1, 2)]%nat Samples.h3_bonds 0 2) (conj Hlt Hd)) as Hin.
  simpl in Hin. intuition discriminate.
Defined.

(** [set_bond_indices] raises [NameError] only when the bonds found by the
    distance test fall into two groups of atoms that no found bond joins:
    a set [L] of atoms that every found bond either lies in or avoids, met by
    some bond and avoided by another. *)
Theorem name_error_only_when_disconnected : forall CR g factor,
  set_bond_indices CR g factor = Err NameError ->
  exists L : list nat,
    (forall b, In b (detect_bonds CR g factor) -> (In (fst b) L <-> In (snd b) L)) /\
    (exists b, In b (detect_bonds CR g factor) /\ In (fst b) L) /\
    (exists b, In b (detect_bonds CR g factor) /\ ~ In (fst b) L).
Proof.
  intros CR g factor H. rewrite set_bond_indices_detect in H.
  set (bs := detect_bonds CR g factor) in *.
  destruct (merge_fragments (map pset bs)) as [out|e] eqn:Em; simpl in H.
  2:{ destruct bs as [|b0 t]; [|].
      - simpl in Em. injection Em as <-. discriminate.
      - exfalso. destruct (merge_fragments_spec (map pset (b0 :: t)) ltac:(discriminate))
          as (rest & L & Hm & _).
        + apply Forall_forall. intros f Hf. apply in_map_iff in Hf as [p [<- _]]. discriminate.
        + congruence. }
  assert (Hnn : Forall (fun c => c <> []) (map pset bs)).
  { apply Forall_forall. intros f Hf. apply in_map_iff in Hf as [p [<- _]]. discriminate. }
  destruct (length out =? 1)%nat eqn:E1; simpl in H.
  - exfalso. destruct bs as [|b0 [|b1 t]]; try discriminate.
    destruct (set_eqb _ _); discriminate.
  - apply Nat.eqb_neq in E1.
    assert (H2 : (2 <= length out)%nat).
    { destruct out; [|simpl in *; lia].
      destruct bs as [|b0 t]; [discriminate|].
      destruct (merge_fragments_spec (map pset (b0 :: t)) ltac:(discriminate) Hnn)
        as (rest & L & Hm & _). rewrite Hm in Em. injection Em as E.
      destruct rest; discriminate. }
    destruct (merge_fragments_cut _ _ Em Hnn H2) as (Hcut & [f [Hf Hin]] & [f' [Hf' Hout]]).
    exists (last out []). split; [|split].
    + intros b Hb. assert (Hp : In (pset b) (map pset bs)) by (apply in_map; exact Hb).
      destruct (Hcut _ Hp) as [Hi|Ho]; unfold pset in *.
      * split; intros _; apply Hi; simpl; auto.
      * split; intros Hx; exfalso; [apply (Ho (fst b)) | apply (Ho (snd b))]; simpl; auto.
    + apply in_map_iff in Hf as [b [<- Hb]]. exists b. split; [exact Hb|]. apply Hin. left; reflexivity.
    + apply in_map_iff in Hf' as [b [<- Hb]]. exists b. split; [exact Hb|]. apply Hout. left; reflexivity.
Qed.

Lemma name_error_only_when_disconnected_witness :
  exists L : list nat,
    (forall b, In b [(0, 1); (2, 3)]%nat -> (In (fst b) L <-> In (snd b) L)) /\
    (exists b, In b [(0, 1); (2, 3)]%nat /\ ~ In (fst b) L).
Proof.
  assert (H : set_bond_indices Samples.sample_radii h2_pair_geom (13 / 10) = Err NameError)
    by (rewrite set_bond_indices_detect, h2_pair_bonds; reflexivity).
  destruct (name_error_only_when_disconnected _ _ _ H) as (L & Hcut & _ & Hout).
  rewrite h2_pair_bonds in Hcut, Hout. exists L. split; [exact Hcut | exact Hout].
Defined.

End BondTest.

Module Topology.
Import IdxSet Enumeration Construction.
Local Open Scope nat_scope.

Lemma sort_by_central_distinct : forall a b x y t1 c t2,
  a < b -> x < y -> sort_by_central (a, b) (x, y) = Ok (t1, c, t2) ->
  t1 < t2 /\ t1 <> c /\ t2 <> c.
Proof.
  intros a b x y t1 c t2 Hab Hxy H.
  unfold sort_by_central, pset, inter, union, diff in *; simpl in *.
  nat_split; injection H; intros; subst; nat_split; repeat split; lia.
Qed.

Lemma norm_pair_in : forall p bonds, (forall r, In r bonds -> fst r < snd r) ->
  In (norm_pair p) (nodup pair_eq_dec (map norm_pair bonds)) -> In p bonds \/ In (snd p, fst p) bonds.
Proof.
  intros [u v] bonds Hlt H. apply nodup_In, in_map_iff in H as [r [E Hr]].
  rewrite (norm_pair_lt r (Hlt r Hr)) in E. subst r.
  unfold norm_pair in Hr; simpl. destruct (u <=? v); [left | right]; exact Hr.
Qed.

Lemma bend_arms : forall bonds,
  (forall p, In p bonds -> fst p < snd p) ->
  exists bends, set_bending_indices bonds = Ok bends /\
  forall t1 c t2, In (t1, c, t2) bends ->
    t1 < t2 /\ t1 <> c /\ t2 <> c /\
    (In (c, t1) bonds \/ In (t1, c) bonds) /\ (In (c, t2) bonds \/ In (t2, c) bonds).
Proof.
  intros bonds Hlt. destruct (set_bending_ok bonds Hlt) as [bends Hb].
  exists bends. split; [exact Hb|]. intros t1 c t2 Hin.
  unfold set_bending_indices in Hb.
  destruct (bends_of_in _ _ _ Hb Hin) as (s1 & s2 & Hs & Hsort).
  apply in_combinations2 in Hs as [Hs1 Hs2].
  assert (Hn1 : fst s1 < snd s1).
  { apply nodup_In, in_map_iff in Hs1 as [r [<- Hr]]. rewrite norm_pair_lt by auto. auto. }
  assert (Hn2 : fst s2 < snd s2).
  { apply nodup_In, in_map_iff in Hs2 as [r [<- Hr]]. rewrite norm_pair_lt by auto. auto. }
  destruct s1 as [a b], s2 as [x y]; simpl in Hn1, Hn2.
  destruct (sort_by_central_distinct a b x y t1 c t2 Hn1 Hn2 Hsort) as (H12 & H1 & H2).
  split; [exact H12|]. split; [exact H1|]. split; [exact H2|].
  destruct (sort_by_central_char a b x y t1 c t2 ltac:(lia) ltac:(lia) Hsort) as [[E1 E2]|[E1 E2]].
  - rewrite E1 in Hs1. rewrite E2 in Hs2.
    split; [apply (norm_pair_in (c, t1)) | apply (norm_pair_in (c, t2))]; assumption.
  - rewrite E1 in Hs1. rewrite E2 in Hs2.
    split; [apply (norm_pair_in (c, t1)) | apply (norm_pair_in (c, t2))]; assumption.
Qed.


(** For bonds given as pairs [i < j], [set_bending_indices] succeeds, and
    every bend [(t1, c, t2)] it returns has two distinct terminals, a centre
    [c] distinct from both, and both arms [c-t1] and [c-t2] among the bonds
    (in either orientation). *)
Theorem bends_are_pairs_of_bonds : forall bonds,
  (forall p, In p bonds -> fst p < snd p) ->
  exists bends, set_bending_indices bonds = Ok bends /\
  forall t1 c t2, In (t1, c, t2) bends ->
    t1 <> t2 /\ t1 <> c /\ t2 <> c /\
    (In (c, t1) bonds \/ In (t1, c) bonds) /\ (In (c, t2) bonds \/ In (t2, c) bonds).
Proof.
  intros bonds H. destruct (bend_arms bonds H) as [bends [Hb Hall]].
  exists bends. split; [exact Hb|]. intros t1 c t2 Hin.
  destruct (Hall t1 c t2 Hin) as (H1 & H2 & H3 & H4 & H5).
  repeat split; try assumption. lia.
Qed.

Lemma bends_are_pairs_of_bonds_witness :
  exists bends, set_bending_indices [(0, 1); (0, 2)] = Ok bends /\
    (In (0, 1) [(0, 1); (0, 2)] \/ In (1, 0) [(0, 1); (0, 2)]).
Proof.
  assert (Hlt : forall p, In p [(0, 1); (0, 2)] -> fst p < snd p)
    by (intros p [<-|[<-|[]]]; simpl; lia).
  destruct (bends_are_pairs_of_bonds [(0, 1); (0, 2)] Hlt) as [bends [Hb Hall]].
  exists bends. split; [exact Hb|].
  assert (E : set_bending_indices [(0, 1); (0, 2)] = Ok [(1, 0, 2)]) by reflexivity.
  rewrite E in Hb. injection Hb as <-. destruct (Hall 1 0 2 (or_introl eq_refl)) as (_ & _ & _ & H & _). exact H.
Defined.

Ltac candidate_close :=
  split; [first [left; split; reflexivity | right; split; reflexivity]|];
  repeat (split; [lia|]);
  first [left; split; [lia | reflexivity] | right; split; [lia | reflexivity]].

Lemma dihedral_candidate_char : forall b0 b1 e0 c e2 d, b0 <> b1 ->
  dihedral_candidate (b0, b1) (e0, c, e2) = Some d ->
  exists t i, ((t = b0 /\ i = b1) \/ (t = b1 /\ i = b0)) /\
    t <> e0 /\ t <> c /\ t <> e2 /\ i <> c /\
    ((i = e0 /\ d = [t; e0; c; e2]) \/ (i = e2 /\ d = [e0; c; e2; t])).
Proof.
  intros b0 b1 e0 c e2 d Hb H.
  unfold dihedral_candidate, card, inter, mem in H. simpl in H.
  nat_split; injection H as <-;
  first [ exists b0, b1; candidate_close | exists b1, b0; candidate_close ].
Qed.

Lemma dihedral_fold_from : forall (P : list nat -> Prop) l acc,
  (forall d, In d (fst acc) -> P d) ->
  (forall bb d, In bb l -> dihedral_candidate (fst bb) (snd bb) = Some d -> P d) ->
  forall d, In d (fst (fold_left dihedral_step l acc)) -> P d.
Proof.
  intros P l. induction l as [|bb t IH]; intros acc Hacc Hl d Hd; simpl in Hd; [auto|].
  apply (IH (dihedral_step acc bb)); [| intros; eapply Hl; [right|]; eauto | exact Hd].
  intros d' Hd'. destruct acc as [di ds]. unfold dihedral_step in Hd'.
  destruct (dihedral_candidate (fst bb) (snd bb)) as [d0|] eqn:Ec; [|auto].
  destruct (existsb (set_eqb d0) ds); [auto|].
  simpl in Hd'. apply in_app_or in Hd' as [Hd'|[<-|[]]]; [auto|].
  eapply Hl; [left; reflexivity | exact Ec].
Qed.

Definition bonded (bonds : list (nat * nat)) (x y : nat) : Prop :=
  In (x, y) bonds \/ In (y, x) bonds.

(** For bonds given as pairs [i < j] and the bends [set_bending_indices]
    finds for them, every dihedral of [set_dihedral_indices] is a chain of
    four distinct atoms [a-b-c-e] joined by the three bonds [a-b], [b-c] and
    [c-e]. *)
Theorem dihedrals_are_bond_chains : forall bonds bends,
  (forall p, In p bonds -> fst p < snd p) ->
  set_bending_indices bonds = Ok bends ->
  forall d, In d (set_dihedral_indices bonds bends) ->
  exists a b c e, d = [a; b; c; e] /\ NoDup d /\
    bonded bonds a b /\ bonded bonds b c /\ bonded bonds c e.
Proof.
  intros bonds bends Hlt Hb.
  destruct (bend_arms bonds Hlt) as [bends' [Hb' Hall]].
  rewrite Hb in Hb'. injection Hb' as <-.
  unfold set_dihedral_indices. apply dihedral_fold_from; [intros d []|].
  intros [[b0 b1] [[e0 c] e2]] d Hin Hc. simpl in Hc.
  apply in_prod_iff in Hin as [Hbond Hbend].
  pose proof (Hlt _ Hbond) as H01. simpl in H01.
  destruct (Hall e0 c e2 Hbend) as (H02 & H0c & H2c & A1 & A2).
  destruct (dihedral_candidate_char b0 b1 e0 c e2 d ltac:(lia) Hc)
    as (t & i & Hti & Ht0 & Htc & Ht2 & Hic & [[-> ->]|[-> ->]]).
  - exists t, e0, c, e2. split; [reflexivity|].
    split; [repeat constructor; simpl; lia|].
    split; [|split; [unfold bonded; tauto | exact A2]].
    unfold bonded. destruct Hti as [[-> ->]|[-> ->]]; [left | right]; exact Hbond.
  - exists e0, c, e2, t. split; [reflexivity|].
    split; [repeat constructor; simpl; lia|].
    split; [unfold bonded; tauto|]. split; [unfold bonded; tauto|].
    unfold bonded. destruct Hti as [[-> ->]|[-> ->]]; [right | left]; exact Hbond.
Qed.

Lemma dihedrals_are_bond_chains_witness :
  set_bending_indices [(0, 1); (1, 2); (2, 3)] = Ok [(0, 1, 2); (1, 2, 3)] /\
  exists a b c e, [0; 1; 2; 3] = [a; b; c; e] /\ bonded [(0, 1); (1, 2); (2, 3)] c e.
Proof.
  assert (Hb : set_bending_indices [(0, 1); (1, 2); (2, 3)] = Ok [(0, 1, 2); (1, 2, 3)])
    by reflexivity.
  split; [exact Hb|].
  assert (Hlt : forall p, In p [(0, 1); (1, 2); (2, 3)] -> fst p < snd p)
    by (intros p [<-|[<-|[<-|[]]]]; simpl; lia).
  assert (Hd : In [0; 1; 2; 3] (set_dihedral_indices [(0, 1); (1, 2); (2, 3)] [(0, 1, 2); (1, 2, 3)]))
    by (rewrite dihedral_chain; left; reflexivity).
  destruct (dihedrals_are_bond_chains _ _ Hlt Hb [0; 1; 2; 3] Hd)
    as (a & b & c & e & E & _ & _ & _ & H).
  exists a, b, c, e. auto.
Defined.

End Topology.

Module Primitives.
Import Gradients Water.
Local Open Scope R_scope.

(** the flat coordinates with every atom moved by [t] *)
Definition translate (t : vec3) (x : list R) : list R := flatten (map (vadd t) (reshape3 x)).

Lemma nth_translate : forall t c k, (k < length c)%nat ->
  nth k (map (vadd t) c) v0 = vadd t (nth k c v0).
Proof.
  intros t c k Hk. rewrite (nth_indep _ v0 (vadd t v0)) by (rewrite length_map; exact Hk).
  apply map_nth.
Qed.

Lemma vsub_vadd : forall t a b, vsub (vadd t a) (vadd t b) = vsub a b.
Proof. intros [] [] []. unfold vsub, vadd; simpl. f_equal; ring. Qed.

Lemma zeros_like_map : forall f c, zeros_like (map f c) = zeros_like c.
Proof. intros f c. unfold zeros_like. rewrite length_map. reflexivity. Qed.

Lemma stretch_translate : forall t c n m, (n < length c)%nat -> (m < length c)%nat ->
  calc_stretch (map (vadd t) c) (n, m) = calc_stretch c (n, m).
Proof.
  intros t c n m Hn Hm. unfold calc_stretch.
  rewrite !nth_translate, vsub_vadd, zeros_like_map by assumption. reflexivity.
Qed.

Lemma bend_translate : forall t c m o n,
  (m < length c)%nat -> (o < length c)%nat -> (n < length c)%nat ->
  calc_bend (map (vadd t) c) (m, o, n) = calc_bend c (m, o, n).
Proof.
  intros t c m o n Hm Ho Hn. unfold calc_bend.
  rewrite !nth_translate, !vsub_vadd, zeros_like_map by assumption. reflexivity.
Qed.

Lemma dihedral_translate : forall t c d, Forall (fun k => (k < length c)%nat) d ->
  calc_dihedral (map (vadd t) c) d = calc_dihedral c d.
Proof.
  intros t c d Hd. destruct d as [|m [|o [|p [|n [|]]]]]; try reflexivity.
  inversion Hd as [|? ? Hm F1]; inversion F1 as [|? ? Ho F2];
  inversion F2 as [|? ? Hp F3]; inversion F3 as [|? ? Hn _]; subst.
  unfold calc_dihedral. rewrite !nth_translate, !vsub_vadd, zeros_like_map by assumption.
  reflexivity.
Qed.

Lemma calculate_translate : forall bonds bends diheds x t,
  let N := length (reshape3 x) in
  Forall (fun p => (fst p < N)%nat /\ (snd p < N)%nat) bonds ->
  Forall (fun b => let '(m, o, n) := b in (m < N)%nat /\ (o < N)%nat /\ (n < N)%nat) bends ->
  Forall (Forall (fun k => (k < N)%nat)) diheds ->
  calculate bonds bends diheds (translate t x) = calculate bonds bends diheds x.
Proof.
  intros bonds bends diheds x t N Hb He Hd. unfold calculate, translate.
  rewrite reshape3_flatten. f_equal; [|f_equal].
  - apply map_ext_in. intros [n m] Hin. rewrite Forall_forall in Hb.
    destruct (Hb _ Hin) as [H1 H2]. rewrite stretch_translate by assumption. reflexivity.
  - apply map_ext_in. intros [[m o] n] Hin. rewrite Forall_forall in He.
    destruct (He _ Hin) as (H1 & H2 & H3). rewrite bend_translate by assumption. reflexivity.
  - apply map_ext_in. intros d Hin. rewrite Forall_forall in Hd.
    rewrite dihedral_translate by exact (Hd _ Hin). reflexivity.
Qed.

Lemma lsub_self : forall v, lsub v v = repeat 0 (length v).
Proof. induction v as [|a t IH]; simpl; [reflexivity|]. unfold lsub in *. simpl. rewrite IH. f_equal. ring. Qed.

(** Moving every atom by the same vector changes neither the value nor the
    gradient row of any primitive that [calculate] evaluates (for index rows
    inside the molecule), so [calculate_val_diffs] between a translated copy
    and the original is the zero vector. *)
Theorem calculate_translation_invariant : forall self x t,
  let N := length (reshape3 x) in
  Forall (fun p => (fst p < N)%nat /\ (snd p < N)%nat) (bond_indices self) ->
  Forall (fun b => let '(m, o, n) := b in (m < N)%nat /\ (o < N)%nat /\ (n < N)%nat)
         (bending_indices self) ->
  Forall (Forall (fun k => (k < N)%nat)) (dihedral_indices self) ->
  calculate (bond_indices self) (bending_indices self) (dihedral_indices self) (translate t x) =
  calculate (bond_indices self) (bending_indices self) (dihedral_indices self) x /\
  calculate_val_diffs self (translate t x) x = repeat 0 (length (calc_vals self x)).
Proof.
  intros self x t N Hb He Hd.
  pose proof (calculate_translate _ _ _ x t Hb He Hd) as E.
  split; [exact E|]. unfold calculate_val_diffs, calc_vals. rewrite E. apply lsub_self.
Qed.

Lemma calculate_translation_invariant_witness :
  calculate_val_diffs BackTransform.h3_engine
    (translate (V3 1 2 3) Samples.h3_x0) Samples.h3_x0 = [0; 0; 0].
Proof.
  assert (Hb : Forall (fun p => (fst p < length (reshape3 Samples.h3_x0))%nat /\
                                (snd p < length (reshape3 Samples.h3_x0))%nat)
                 (bond_indices BackTransform.h3_engine))
    by (unfold Samples.h3_x0, Samples.h3_geom; simpl; repeat constructor; lia).
  assert (He : Forall (fun b => let '(m, o, n) := b in
                 (m < length (reshape3 Samples.h3_x0))%nat /\ (o < length (reshape3 Samples.h3_x0))%nat /\
                 (n < length (reshape3 Samples.h3_x0))%nat) (bending_indices BackTransform.h3_engine))
    by (unfold Samples.h3_x0, Samples.h3_geom; simpl; repeat constructor; lia).
  assert (Hd : Forall (Forall (fun k => (k < length (reshape3 Samples.h3_x0))%nat))
                 (dihedral_indices BackTransform.h3_engine)) by (simpl; constructor).
  destruct (calculate_translation_invariant BackTransform.h3_engine Samples.h3_x0 (V3 1 2 3) Hb He Hd)
    as [_ E].
  rewrite E. reflexivity.
Defined.

Lemma calc_bend_fst : forall c m o n,
  fst (calc_bend c (m, o, n)) =
  acos (vdot (vdiv (vsub (nth m c v0) (nth o c v0)) (vnorm (vsub (nth m c v0) (nth o c v0))))
             (vdiv (vsub (nth n c v0) (nth o c v0)) (vnorm (vsub (nth n c v0) (nth o c v0))))).
Proof. reflexivity. Qed.

Lemma set_nth_comm {A : Type} : forall i j (x y : A) l, i <> j ->
  set_nth i x (set_nth j y l) = set_nth j y (set_nth i x l).
Proof.
  induction i; intros j x y l Hij; destruct j; destruct l; simpl; try reflexivity; try lia.
  f_equal. apply IHi. lia.
Qed.

Lemma vnorm_vsub_sym : forall a b, vnorm (vsub a b) = vnorm (vsub b a).
Proof. intros [] []. unfold vnorm, vdot, vsub; simpl. f_equal. ring. Qed.

Lemma vscale_neg_sub : forall a b L, vscale (-1) (vdiv (vsub a b) L) = vscale 1 (vdiv (vsub b a) L).
Proof. intros [] [] L. unfold vscale, vdiv, vsub; simpl. f_equal; ring. Qed.

(** The order of the atoms of a primitive does not matter where the code
    treats them alike: a stretch [(n, m)] with [n <> m] gives the same value
    and the same gradient row as [(m, n)], and a bend [(m, o, n)] has the
    same value as [(n, o, m)]. *)
Theorem primitive_order_symmetric : forall c n m o,
  (n <> m)%nat ->
  calc_stretch c (n, m) = calc_stretch c (m, n) /\
  fst (calc_bend c (m, o, n)) = fst (calc_bend c (n, o, m)).
Proof.
  intros c n m o Hnm. split.
  - unfold calc_stretch. rewrite (vnorm_vsub_sym (nth m c v0)).
    set (L := vnorm (vsub (nth n c v0) (nth m c v0))).
    rewrite !(vscale_neg_sub _ _ L).
    rewrite (set_nth_comm n m) by exact Hnm. reflexivity.
  - rewrite !calc_bend_fst. f_equal. unfold vdot. ring.
Qed.

Lemma primitive_order_symmetric_witness :
  calc_stretch (reshape3 Samples.h3_x0) (0, 1)%nat = calc_stretch (reshape3 Samples.h3_x0) (1, 0)%nat.
Proof. exact (proj1 (primitive_order_symmetric (reshape3 Samples.h3_x0) 0 1 2 ltac:(lia))). Defined.

(** [calculate] returns one primitive per index row, the stretches first,
    then the bends, then the dihedrals, each carrying its own index row and
    a gradient row of length [3 N]: the B matrix has one row per primitive
    and [3 N] columns. *)
Theorem calculate_shape : forall bonds bends diheds x,
  Forall (fun d => length d = 4%nat) diheds ->
  let cs := calculate bonds bends diheds x in
  length cs = (length bonds + length bends + length diheds)%nat /\
  map inds cs = map (fun p => [fst p; snd p]) bonds ++
                map (fun b => let '(m, o, n) := b in [m; o; n]) bends ++ diheds /\
  Forall (fun r => length r = (3 * length (reshape3 x))%nat) (map grad cs).
Proof.
  intros bonds bends diheds x Hd cs. subst cs. unfold calculate.
  split; [rewrite !length_app, !length_map; lia|]. split.
  - rewrite !map_app, !map_map. f_equal; [|f_equal].
    + apply map_ext. intros [n m]. reflexivity.
    + apply map_ext. intros [[m o] n]. reflexivity.
    + rewrite <- (map_id diheds) at 2. apply map_ext. intros d.
      destruct (calc_dihedral (reshape3 x) d). reflexivity.
  - rewrite !map_app, !map_map. apply Forall_app. split; [|apply Forall_app; split];
      apply Forall_forall; intros r Hr; apply in_map_iff in Hr as [ind [<- Hin]].
    + destruct ind as [n m]. simpl. unfold calc_stretch. simpl.
      rewrite length_flatten, !length_set_nth, length_zeros. reflexivity.
    + destruct ind as [[m o] n]. unfold calc_bend. simpl.
      rewrite length_flatten, !length_set_nth, length_zeros. reflexivity.
    + rewrite Forall_forall in Hd. pose proof (Hd ind Hin) as H4.
      destruct ind as [|m [|o [|p [|n [|]]]]]; simpl in H4; try discriminate.
      unfold calc_dihedral. simpl.
      rewrite length_flatten, !length_set_nth, length_zeros. reflexivity.
Qed.

Lemma calculate_shape_witness :
  length (calculate [(0, 1); (1, 2); (2, 3)]%nat [(0, 1, 2); (1, 2, 3)]%nat [[0; 1; 2; 3]]%nat
                    (repeat 0 12)) = 6%nat.
Proof.
  destruct (calculate_shape [(0, 1); (1, 2); (2, 3)]%nat [(0, 1, 2); (1, 2, 3)]%nat [[0; 1; 2; 3]]%nat
              (repeat 0 12) ltac:(repeat constructor)) as [H _].
  rewrite H. reflexivity.
Defined.

End Primitives.

Module Convergence.
Import BackTransform Construction Bonds.
Local Open Scope R_scope.

Lemma lsum_sq_nonneg : forall l, 0 <= lsum (map (fun x => x ^ 2) l).
Proof.
  unfold lsum. induction l as [|h t IH]; cbn [map fold_right]; [lra|]. pose proof (pow2_ge_0 h). lra.
Qed.

Lemma lsum_sq_zero : forall l, lsum (map (fun x => x ^ 2) l) = 0 -> Forall (fun x => x = 0) l.
Proof.
  induction l as [|h t IH]; intros H; unfold lsum in H; cbn [map fold_right] in H; constructor.
  - pose proof (pow2_ge_0 h). pose proof (lsum_sq_nonneg t).
    assert (E : h ^ 2 = 0) by (unfold lsum in *; lra).
    destruct (Req_dec h 0) as [Z|Z]; [exact Z | exfalso; exact (pow_nonzero h 2 Z E)].
  - apply IH. pose proof (pow2_ge_0 h). pose proof (lsum_sq_nonneg t). unfold lsum in *. lra.
Qed.

Lemma length_lsub : forall a b, length (lsub a b) = Nat.min (length a) (length b).
Proof. intros a b. unfold lsub. rewrite length_map, length_combine. reflexivity. Qed.

Lemma lsub_zero_eq : forall a b, length a = length b ->
  Forall (fun x => x = 0) (lsub a b) -> a = b.
Proof.
  induction a as [|x a IH]; intros [|y b] Hl H; simpl in Hl; try discriminate; [reflexivity|].
  unfold lsub in H. simpl in H. inversion H as [|? ? Hxy Ht]; subst.
  f_equal; [lra|]. apply IH; [lia | exact Ht].
Qed.

(** The Cartesian RMS that [transform] compares with the threshold is never
    negative, does not depend on the order of its arguments, and for two
    coordinate arrays of the same non-zero length it is zero exactly when
    the arrays are equal. *)
Theorem rms_zero_iff_equal : forall x y,
  0 <= rms x y /\ rms x y = rms y x /\
  (length x = length y -> x <> [] -> (rms x y = 0 <-> x = y)).
Proof.
  intros x y. split; [apply sqrt_pos|]. split.
  - unfold rms. f_equal. rewrite !length_lsub, Nat.min_comm. f_equal.
    revert y. induction x as [|a x IH]; intros [|b y]; try reflexivity.
    unfold lsub, lsum in *. simpl. rewrite IH. f_equal. ring.
  - intros Hl Hne. split.
    + intros H. unfold rms in H. apply sqrt_eq_0 in H.
      2:{ apply Rmult_le_pos; [apply lsum_sq_nonneg|].
          apply Rlt_le, Rinv_0_lt_compat, lt_0_INR. rewrite length_lsub, <- Hl, Nat.min_id.
          destruct x; [congruence | simpl; lia]. }
      assert (Hn : INR (length (lsub x y)) <> 0).
      { apply not_0_INR. rewrite length_lsub, <- Hl, Nat.min_id. destruct x; [congruence | discriminate]. }
      unfold Rdiv in H. apply Rmult_integral in H as [H|H].
      * apply lsub_zero_eq; [exact Hl | apply lsum_sq_zero, H].
      * exfalso. apply Rinv_neq_0_compat in Hn. contradiction.
    + intros <-. apply rms_self.
Qed.

Lemma rms_zero_iff_equal_witness :
  rms [1; 2; 3] [1; 2; 3] = 0 /\ [1; 2; 3] = [1; 2; 3].
Proof.
  destruct (rms_zero_iff_equal [1; 2; 3] [1; 2; 3]) as (_ & _ & H).
  assert (Hne : [1; 2; 3] <> []) by discriminate.
  split; [apply (H eq_refl Hne) |]; reflexivity.
Defined.

(** With a threshold at or below zero no cycle of [transform] can converge:
    the loop always runs its 25 cycles, prints only the 25 cycle lines and
    never [Converged!], and the geometry ends at the 25th iterate. *)
Theorem transform_nonpositive_threshold_runs_25_cycles :
  forall self w a thr, thr <= 0 -> length (heap w a) = length (B_inv self) ->
  let BT := transpose (B_inv self) in
  let st0 := (geom_coords w, calc_vals self (geom_coords w), heap w a) in
  exists w', transform self w a thr = Ok (w', tt) /\
    stdout w' = stdout w ++ cycle_lines self BT 0 25 st0 /\
    geom_coords w' = bt_x (bt_iter self BT 25 st0) /\
    heap w' a = snd (bt_iter self BT 25 st0).
Proof.
  intros self w a thr Hthr Hlen BT st0.
  pose proof (transform_spec self w a thr Hlen) as T. cbv zeta in T.
  fold BT st0 in T.
  destruct T as (w' & Ht & Hgeo & Hh & _ & Hout).
  pose proof (bt_converged_nonpos self BT thr 25 st0 Hthr) as Hc.
  destruct (bt_converged_false _ _ _ _ _ Hc) as [Hn _].
  rewrite Hc, app_nil_r, Hn in Hout. rewrite Hn in Hgeo, Hh.
  exists w'. repeat split; assumption.
Qed.

Lemma transform_nonpositive_threshold_runs_25_cycles_witness :
  exists w', transform h3_engine (h3_world [3; 0; 0]) 0 0 = Ok (w', tt) /\
    length (stdout w') = 25%nat.
Proof.
  assert (Hlen : length (heap (h3_world [3; 0; 0]) 0) = length (B_inv h3_engine))
    by (rewrite h3_engine_B_inv; reflexivity).
  destruct (transform_nonpositive_threshold_runs_25_cycles h3_engine (h3_world [3; 0; 0]) 0 0
              (Rle_refl 0) Hlen) as (w' & Ht & Ho & _).
  exists w'. split; [exact Ht|]. rewrite Ho. unfold cycle_lines.
  rewrite length_app, length_map, length_seq. reflexivity.
Defined.

End Convergence.

Module Rho.
Import Samples Bonds Construction Water.
Local Open Scope nat_scope.

(** [set_rho] on its own, for [N] atoms with [3 N] coordinates: for
    [N <= 1] it returns the 1x1 zero matrix; for [N = 2] the condensed vector
    handed to [squareform] has two entries, which is no triangular number,
    and [squareform] raises [ValueError]; for [N = 3] it returns a 3x3
    matrix; for [N >= 4] the elementwise product of per-atom and per-pair
    arrays raises the broadcast [ValueError]. *)
Theorem set_rho_outcome_by_atom_count : forall CR g,
  length (coords g) = 3 * length (atoms g) ->
  (length (atoms g) <= 1 -> set_rho CR g = Ok [[0%R]]) /\
  (length (atoms g) = 2 -> set_rho CR g = Err ValueError_squareform) /\
  (length (atoms g) = 3 -> exists rho, set_rho CR g = Ok rho /\
     length rho = 3 /\ Forall (fun r => length r = 3) rho) /\
  (4 <= length (atoms g) -> set_rho CR g = Err ValueError_broadcast).
Proof.
  intros CR [atoms_ coords_] Hc. cbn [atoms coords] in *.
  split; [|split; [|split]]; intros Hn.
  - destruct atoms_ as [|a0 [|a1 t]]; simpl in Hn; try lia.
    + destruct coords_; [reflexivity | simpl in Hc; lia].
    + destruct coords_ as [|x0 [|x1 [|x2 [|]]]]; simpl in Hc; try lia. reflexivity.
  - destruct atoms_ as [|a0 [|a1 [|a2 t]]]; simpl in Hn; try lia.
    destruct coords_ as [|x0 [|x1 [|x2 [|x3 [|x4 [|x5 [|]]]]]]]; simpl in Hc; try lia.
    reflexivity.
  - destruct atoms_ as [|a0 [|a1 [|a2 [|a3 t]]]]; simpl in Hn; try lia.
    destruct coords_ as [|x0 [|x1 [|x2 [|x3 [|x4 [|x5 [|x6 [|x7 [|x8 [|]]]]]]]]]]; simpl in Hc; try lia.
    eexists. split; [reflexivity|]. split; [reflexivity|]. repeat constructor.
  - pose proof (length_reshape3 _ _ Hc) as Hr.
    unfold set_rho, broadcast. cbn [atoms coords]. rewrite !length_map, length_pdist, Hr.
    pose proof (length_combinations2 (seq 0 (length atoms_))) as Hl.
    rewrite length_seq in Hl.
    destruct (Nat.eqb_spec (length atoms_) (length (combinations2 (seq 0 (length atoms_))))); [nia|].
    destruct (Nat.eqb_spec (length atoms_) 1); [lia|].
    destruct (Nat.eqb_spec (length (combinations2 (seq 0 (length atoms_)))) 1); [nia|].
    reflexivity.
Qed.

Definition he2_geom : Geometry :=
  {| atoms := ["He"; "He"]%string; coords := [0; 0; 0; 5; 0; 0]%R |}.

Lemma set_rho_outcome_by_atom_count_witness :
  set_rho sample_radii he2_geom = Err ValueError_squareform.
Proof.
  destruct (set_rho_outcome_by_atom_count sample_radii he2_geom eq_refl) as (_ & H & _).
  apply H. reflexivity.
Defined.

End Rho.

Module Distances.
Import Enumeration Bonds Construction Primitives.
Local Open Scope nat_scope.

Lemma tri_double : forall i, 2 * (i * (i + 1) / 2) = i * (i + 1).
Proof.
  induction i as [|i IH]; [reflexivity|].
  replace (S i * (S i + 1)) with (i * (i + 1) + (i + 1) * 2) by ring.
  rewrite Nat.div_add by lia. lia.
Qed.

Lemma tri_succ : forall i, S i * (S i + 1) / 2 = i * (i + 1) / 2 + (i + 1).
Proof.
  intros i. replace (S i * (S i + 1)) with (i * (i + 1) + (i + 1) * 2) by ring.
  apply Nat.div_add. lia.
Qed.

Lemma cidx_S : forall n i j, S i < j -> j < S n ->
  cidx (S n) (S i) j = n + cidx n i (j - 1).
Proof.
  intros n i j H1 H2. unfold cidx. rewrite tri_succ.
  pose proof (tri_double i). nia.
Qed.

Lemma nth_combinations2_seq : forall n s i j, i < j < n ->
  cidx n i j < length (combinations2 (seq s n)) /\
  nth (cidx n i j) (combinations2 (seq s n)) (0, 0) = (s + i, s + j).
Proof.
  induction n as [|n IH]; intros s i j H; [lia|].
  cbn [seq combinations2]. rewrite length_app, length_map, length_seq.
  destruct i as [|i].
  - unfold cidx. replace (S n * 0 - 0 * (0 + 1) / 2 + (j - 0 - 1)) with (j - 1) by (simpl; lia).
    split; [lia|]. rewrite app_nth1 by (rewrite length_map, length_seq; lia).
    rewrite (nth_indep _ (0, 0) ((fun y => (s, y)) 0)) by (rewrite length_map, length_seq; lia).
    rewrite map_nth, seq_nth by lia. f_equal; lia.
  - rewrite cidx_S by lia. destruct (IH (S s) i (j - 1)) as [Hb He]; [lia|].
    split; [lia|]. rewrite app_nth2 by (rewrite length_map, length_seq; lia).
    rewrite length_map, length_seq. replace (n + cidx n i (j - 1) - n) with (cidx n i (j - 1)) by lia.
    rewrite He. f_equal; lia.
Qed.

Lemma find_seq_first : forall (f : nat -> bool) m a d, a <= d < a + m -> f d = true ->
  (forall k, a <= k < d -> f k = false) -> find f (seq a m) = Some d.
Proof.
  induction m as [|m IH]; intros a d Hd Hf Hk; [lia|]. cbn [seq find].
  destruct (Nat.eq_dec a d) as [<-|Hne]; [rewrite Hf; reflexivity|].
  rewrite Hk by lia. apply IH; [lia | exact Hf |]. intros k Hk'. apply Hk. lia.
Qed.

Lemma tri_root_pairs : forall d, 2 <= d -> tri_root (length (combinations2 (seq 0 d))) = Some d.
Proof.
  intros d Hd. pose proof (length_combinations2 (seq 0 d)) as Hl. rewrite length_seq in Hl.
  unfold tri_root. apply find_seq_first.
  - destruct d as [|[|d]]; [lia | lia | nia].
  - apply Nat.eqb_eq. lia.
  - intros k Hk. apply Nat.eqb_neq. rewrite Hl.
    destruct k as [|k]; [destruct d as [|[|d]]; simpl; nia|].
    destruct d as [|d]; [lia|]. simpl. rewrite !Nat.sub_0_r. nia.
Qed.

Lemma nth_map_lt : forall {A B : Type} (F : A -> B) l i d d0, i < length l ->
  nth i (map F l) d = F (nth i l d0).
Proof.
  intros A B F l i d d0 H. rewrite (nth_indep _ d (F d0)) by (rewrite length_map; exact H).
  apply map_nth.
Qed.

Lemma vnorm_vsub_self : forall a, vnorm (vsub a a) = 0%R.
Proof.
  intros []. unfold vnorm, vdot, vsub; simpl.
  replace (_ + _ + _)%R with 0%R by ring. apply sqrt_0.
Qed.

Definition dist (c : list vec3) (i j : nat) : R := vnorm (vsub (nth i c v0) (nth j c v0)).

Lemma nth_pdist : forall c i j, i < j < length c ->
  nth (cidx (length c) i j) (pdist c) 0%R = dist c i j.
Proof.
  intros c i j H. destruct (nth_combinations2_seq (length c) 0 i j H) as [Hb He].
  unfold pdist. rewrite (nth_map_lt _ _ _ _ (0, 0) Hb), He. reflexivity.
Qed.

Lemma squareform_pdist : forall c, 2 <= length c ->
  exists dm, squareform (pdist c) = Ok dm /\
    length dm = length c /\ Forall (fun r => length r = length c) dm /\
    forall i j, i < length c -> j < length c -> nth j (nth i dm []) 0%R = dist c i j.
Proof.
  intros c Hc.
  assert (Hr : tri_root (length (pdist c)) = Some (length c))
    by (rewrite length_pdist; apply tri_root_pairs, Hc).
  assert (Hne : pdist c <> []).
  { intros E. pose proof (length_combinations2 (seq 0 (length c))) as Hl.
    rewrite length_seq, <- length_pdist, E in Hl. simpl in Hl. nia. }
  set (N := length c) in *.
  exists (map (fun i => map (fun j =>
            if (i <? j) then nth (cidx N i j) (pdist c) 0%R
            else if (j <? i) then nth (cidx N j i) (pdist c) 0%R else 0%R)
          (seq 0 N)) (seq 0 N)).
  split; [unfold squareform; destruct (pdist c) as [|x t] eqn:E; [congruence|]; rewrite Hr; reflexivity|].
  split; [rewrite length_map, length_seq; reflexivity|]. split.
  - apply Forall_forall. intros r Hr'. apply in_map_iff in Hr' as [i [<- _]].
    rewrite length_map, length_seq. reflexivity.
  - intros i j Hi Hj.
    rewrite (nth_map_lt _ _ _ _ 0) by (rewrite length_seq; exact Hi).
    rewrite (nth_map_lt _ _ _ _ 0) by (rewrite length_seq; exact Hj).
    rewrite !seq_nth by assumption. cbn [Nat.add]. unfold N.
    destruct (Nat.ltb_spec i j) as [Hij|Hij].
    + apply nth_pdist. lia.
    + destruct (Nat.ltb_spec j i) as [Hji|Hji].
      * rewrite nth_pdist by lia. unfold dist. apply vnorm_vsub_sym.
      * assert (i = j) by lia. subst j. unfold dist. rewrite vnorm_vsub_self. reflexivity.
Qed.

(** For two or more atoms, [squareform(pdist(coords3d))] is the full
    [N x N] distance matrix: entry [(i, j)] is the Euclidean distance of
    atoms [i] and [j], read from the condensed vector in either order, and
    zero on the diagonal. *)
Theorem squareform_pdist_is_distance_matrix : forall c, 2 <= length c ->
  exists dm, squareform (pdist c) = Ok dm /\
    length dm = length c /\ Forall (fun r => length r = length c) dm /\
    forall i j, i < length c -> j < length c ->
      nth j (nth i dm []) 0%R = vnorm (vsub (nth i c v0) (nth j c v0)).
Proof. exact squareform_pdist. Qed.

Lemma squareform_pdist_is_distance_matrix_witness :
  exists dm, squareform (pdist (reshape3 (coords h2_geom))) = Ok dm /\
    nth 1 (nth 0 dm []) 0%R = vnorm (vsub (nth 0 (reshape3 (coords h2_geom)) v0)
                                          (nth 1 (reshape3 (coords h2_geom)) v0)).
Proof.
  assert (H : 2 <= length (reshape3 (coords h2_geom))) by (simpl; lia).
  destruct (squareform_pdist_is_distance_matrix _ H) as (dm & E & _ & _ & Hd).
  exists dm. split; [exact E|]. apply Hd; simpl; lia.
Defined.

Lemma mapM_Err : forall {A B : Type} (f : A -> result B) l e0,
  (exists x, In x l /\ exists e, f x = Err e) -> (forall x e, f x = Err e -> e = e0) ->
  mapM f l = Err e0.
Proof.
  intros A B f l e0. induction l as [|x t IH]; intros [y [Hy [e He]]] Hall; [contradiction|].
  simpl. destruct (f x) as [v|e'] eqn:Ef; simpl.
  - destruct Hy as [<-|Hy]; [congruence|]. rewrite (IH (ex_intro _ y (conj Hy (ex_intro _ e He))) Hall).
    reflexivity.
  - rewrite (Hall _ _ Ef). reflexivity.
Qed.

Lemma mapM_Ok : forall {A B : Type} (f : A -> result B) l,
  (forall x, In x l -> exists y, f x = Ok y) -> exists ys, mapM f l = Ok ys.
Proof.
  intros A B f l. induction l as [|x t IH]; intros H; [exists []; reflexivity|].
  destruct (H x (or_introl eq_refl)) as [y Hy].
  destruct IH as [ys Hys]; [intros z Hz; apply H; right; exact Hz|].
  exists (y :: ys). simpl. rewrite Hy, Hys. reflexivity.
Qed.

Lemma argmin_first_err : forall l e, argmin_first l = Err e -> l = [] /\ e = ValueError_argmin.
Proof. intros [|x t] e H; simpl in H; [injection H as <-; auto | discriminate]. Qed.

Lemma list_prod_nil : forall (l : list nat), list_prod l ([] : list nat) = [].
Proof. induction l; simpl; auto. Qed.

Lemma Forall2_impl_l : forall {A B : Type} (P Q : A -> B -> Prop) l1 l2,
  (forall x y, In x l1 -> P x y -> Q x y) -> Forall2 P l1 l2 -> Forall2 Q l1 l2.
Proof.
  intros A B P Q l1 l2 H HF. induction HF as [|x y l1 l2 Hxy HF IH]; constructor.
  - apply H; [left; reflexivity | exact Hxy].
  - apply IH. intros a b Ha. apply H. right. exact Ha.
Qed.

Lemma pair_with_empty : forall (frs : list (list nat)), 2 <= length frs -> In [] frs ->
  exists p, In p (combinations2 frs) /\ (fst p = [] \/ snd p = []).
Proof.
  induction frs as [|f t IH]; intros Hl Hin; [simpl in Hl; lia|].
  destruct t as [|g t]; [simpl in Hl; lia|].
  cbn [combinations2]. destruct Hin as [E|Hin]; [subst f|].
  - exists ([], g). split; [apply in_or_app; left; left; reflexivity | left; reflexivity].
  - destruct (In_dec (list_eq_dec Nat.eq_dec) [] (g :: t)) as [_|Hn]; [|contradiction].
    destruct Hin as [E|Hin]; [subst g|].
    + exists (f, []). split; [apply in_or_app; left; left; reflexivity | right; reflexivity].
    + exists (f, []). split; [|right; reflexivity].
      apply in_or_app. left. right. apply in_map_iff. exists []. split; [reflexivity | exact Hin].
Qed.

Lemma connect_fragments_spec : forall c frs,
  2 <= length c -> Forall (fun fr => Forall (fun i => i < length c) fr) frs ->
  (2 <= length frs -> In [] frs -> connect_fragments (pdist c) frs = Err ValueError_argmin) /\
  (Forall (fun fr => fr <> []) frs -> exists bonds, connect_fragments (pdist c) frs = Ok bonds) /\
  (forall bonds, connect_fragments (pdist c) frs = Ok bonds ->
   Forall2 (fun fr b =>
     In (fst b) (fst fr) /\ In (snd b) (snd fr) /\
     forall i j, In i (fst fr) -> In j (snd fr) ->
       (vnorm (vsub (nth (fst b) c v0) (nth (snd b) c v0))
        <= vnorm (vsub (nth i c v0) (nth j c v0)))%R)
     (combinations2 frs) bonds).
Proof.
  intros c frs Hc Hfr.
  destruct (squareform_pdist c Hc) as (dm & Hdm & _ & _ & Hd).
  split; [|split].
  - intros Hl Hin. unfold connect_fragments. rewrite Hdm. cbn [bind].
    apply mapM_Err.
    + destruct (pair_with_empty frs Hl Hin) as [[f1 f2] [Hp He]]. exists (f1, f2). split; [exact Hp|].
      exists ValueError_argmin. cbn [fst snd] in He |- *.
      destruct He as [->| ->]; [reflexivity|]. rewrite list_prod_nil. reflexivity.
    + intros x e He. apply argmin_first_err in He as [_ He]. exact He.
  - intros Hne. unfold connect_fragments. rewrite Hdm. cbn [bind]. apply mapM_Ok.
    intros [f1 f2] Hp. apply in_combinations2 in Hp as [H1 H2].
    rewrite Forall_forall in Hne.
    destruct f1 as [|a1 f1]; [exfalso; exact (Hne _ H1 eq_refl)|].
    destruct f2 as [|a2 f2]; [exfalso; exact (Hne _ H2 eq_refl)|].
    simpl. eexists. reflexivity.
  - intros bonds H. pose proof (connect_fragments_closest _ _ _ _ Hdm H) as HF.
    eapply Forall2_impl_l; [|exact HF].
    intros [f1 f2] [b1 b2] Hp [Hb1 [Hb2 Hmin]]. cbn [fst snd] in *.
    apply in_combinations2 in Hp as [Hf1 Hf2].
    rewrite Forall_forall in Hfr.
    assert (B1 : forall i, In i f1 -> i < length c) by (apply Forall_forall, Hfr, Hf1).
    assert (B2 : forall i, In i f2 -> i < length c) by (apply Forall_forall, Hfr, Hf2).
    split; [exact Hb1|]. split; [exact Hb2|]. intros i j Hi Hj.
    specialize (Hmin i j Hi Hj). rewrite !Hd in Hmin by auto. exact Hmin.
Qed.

(** [connect_fragments] on the condensed distances of the atoms: with an
    empty fragment among two or more it raises [ValueError] ([argmin] of an
    empty array); with every fragment non-empty it succeeds, and for each
    pair of fragments, in the order of [combinations], it returns an atom of
    the first and an atom of the second at the least Cartesian distance
    among all such pairs of atoms. *)
Theorem connect_fragments_closest_atoms : forall c frs,
  2 <= length c -> Forall (fun fr => Forall (fun i => i < length c) fr) frs ->
  (2 <= length frs -> In [] frs -> connect_fragments (pdist c) frs = Err ValueError_argmin) /\
  (Forall (fun fr => fr <> []) frs -> exists bonds, connect_fragments (pdist c) frs = Ok bonds) /\
  (forall bonds, connect_fragments (pdist c) frs = Ok bonds ->
   Forall2 (fun fr b =>
     In (fst b) (fst fr) /\ In (snd b) (snd fr) /\
     forall i j, In i (fst fr) -> In j (snd fr) ->
       (vnorm (vsub (nth (fst b) c v0) (nth (snd b) c v0))
        <= vnorm (vsub (nth i c v0) (nth j c v0)))%R)
     (combinations2 frs) bonds).
Proof. exact connect_fragments_spec. Qed.

Lemma connect_fragments_closest_atoms_witness :
  connect_fragments (pdist (reshape3 (coords h2_geom))) [[0]; []] = Err ValueError_argmin.
Proof.
  assert (Hc : 2 <= length (reshape3 (coords h2_geom))) by (simpl; lia).
  assert (Hf : Forall (fun fr => Forall (fun i => i < length (reshape3 (coords h2_geom))) fr) [[0]; []])
    by (repeat constructor; simpl; lia).
  destruct (connect_fragments_closest_atoms _ _ Hc Hf) as [H _].
  apply H; [simpl; lia | right; left; reflexivity].
Defined.

End Distances.

(** ** Connecting the fragments found by the distance test *)

Module Interfragment.
Import IdxSet Enumeration Samples Bonds Construction Fragments BondTest Distances.
Local Open Scope nat_scope.














End Interfragment.
